(** * dmidecode: the text-to-table parser and its queries

    A shallow embedding of [dmidecode.go] (package [dmidecode]): the
    [DMI] value with its [Data] table, [ParseDmidecode] with its line
    scan, and [GenericSearchBy] with its two wrappers, together with the
    parts of Go's [strings] and [regexp] packages the parser calls. *)

From Stdlib Require Import Ascii String DecimalString DecimalZ ZArith.
From stdpp Require Import base tactics option list gmap strings fin_maps.

Set Default Proof Using "Type".

(** ** Go strings

    A Go [string] is an immutable sequence of bytes; it is modelled as a
    list of [ascii] (one [ascii] is one byte). *)

Abbreviation gostring := (list ascii).

Definition NL : ascii := ascii_of_nat 10.
Definition TAB : ascii := ascii_of_nat 9.
Definition FF : ascii := ascii_of_nat 12.
Definition CR : ascii := ascii_of_nat 13.
Definition SP : ascii := ascii_of_nat 32.
Definition BSL : ascii := ascii_of_nat 92.

(** [unescape] reads the escapes of a Go interpreted string literal that
    the sources and the examples use: backslash-n, backslash-t and a
    doubled backslash. *)
Fixpoint unescape (s : string) : gostring :=
  match s with
  | EmptyString => []
  | String c s' =>
      if Ascii.eqb c BSL then
        match s' with
        | String c' s'' =>
            if Ascii.eqb c' "n" then NL :: unescape s''
            else if Ascii.eqb c' "t" then TAB :: unescape s''
            else if Ascii.eqb c' BSL then BSL :: unescape s''
            else c :: unescape s'
        | EmptyString => [c]
        end
      else c :: unescape s'
  end.

(** [go "..."] is the Go string written by that literal. *)
Definition go (s : string) : gostring := unescape s.

(** ** strings.Split *)

Module Strings.

(** [HasPrefix s prefix]. *)
Fixpoint HasPrefix (s prefix : gostring) {struct prefix} : bool :=
  match prefix, s with
  | [], _ => true
  | p :: prefix', c :: s' => Ascii.eqb p c && HasPrefix s' prefix'
  | _ :: _, [] => false
  end.

(** [Index s sep]: the offset of the first instance of [sep] in [s],
    [None] for Go's [-1]. *)
Fixpoint Index (s sep : gostring) : option nat :=
  if HasPrefix s sep then Some 0
  else match s with
       | [] => None
       | _ :: s' => S <$> Index s' sep
       end.

(** The loop of [genSplit] for a non-empty separator: cut [s] at the
    first instance of [sep], continue behind it.  The scan below walks
    [s] once: [cur] is the piece being collected (reversed) and [skip]
    counts the bytes of a separator still to be passed over. *)
Fixpoint split_go (sep : gostring) (skip : nat) (cur : gostring)
    (s : gostring) : list gostring :=
  match s with
  | [] => [reverse cur]
  | c :: s' =>
      match skip with
      | S n => split_go sep n cur s'
      | 0 =>
          if HasPrefix s sep
          then reverse cur :: split_go sep (length sep - 1) [] s'
          else split_go sep 0 (c :: cur) s'
      end
  end.

(** [Split s sep], for [sep] non-empty (both call sites pass a literal). *)
Definition Split (s sep : gostring) : list gostring := split_go sep 0 [] s.

(** [Join elems sep]. *)
Fixpoint Join (elems : list gostring) (sep : gostring) : gostring :=
  match elems with
  | [] => []
  | e :: elems' =>
      match elems' with
      | [] => e
      | _ :: _ => e ++ sep ++ Join elems' sep
      end
  end.

End Strings.

(** ** regexp

    The three patterns of the parser use literals, the classes [.], [\s]
    and [\d], the greedy [+] on a class, capture groups, [^] and [$].
    Go's matcher returns the leftmost match, and among those the one a
    backtracking search finds first; [run] lists the matches of a pattern
    at one position in the order of that search.

    Go matches code points of the UTF-8 text, and reads every byte of an
    invalid sequence as one code point.  The literals and the classes
    [\s] and [\d] of the three patterns are ASCII, and no byte of a longer
    sequence is ASCII, so every group of these patterns begins and ends
    where a code point does, and matching byte by byte gives the same
    groups. *)

Module Regexp.

(** One-byte classes. *)
Inductive cclass : Type :=
  | CAny    (* [.]  : any byte but a line break *)
  | CSpace  (* [\s] : tab, line break, form feed, carriage return, space *)
  | CDigit. (* [\d] : 0 .. 9 *)

Definition is_space (c : ascii) : bool :=
  Ascii.eqb c TAB || Ascii.eqb c NL || Ascii.eqb c FF || Ascii.eqb c CR
  || Ascii.eqb c SP.

Definition is_digit (c : ascii) : bool :=
  let n := nat_of_ascii c in (48 <=? n)%nat && (n <=? 57)%nat.

Definition cmatch (cl : cclass) (c : ascii) : bool :=
  match cl with
  | CAny => negb (Ascii.eqb c NL)
  | CSpace => is_space c
  | CDigit => is_digit c
  end.

Inductive regex : Type :=
  | RLit (l : gostring)            (* a literal *)
  | RPlus (cl : cclass)            (* [cl+], greedy *)
  | RGroup (n : nat) (r : regex)   (* the [n]-th capture group *)
  | RSeq (r1 r2 : regex)
  | RBegin                         (* [^], beginning of the text *)
  | REnd.                          (* [$], end of the text *)

Infix "⋅" := RSeq (at level 60, right associativity).

(** The state of a search: what each group captured so far. *)
Abbreviation captures := (list gostring).

(** The prefixes of [s] made of bytes of [cl], the longest first, each
    with the text left behind it; the empty prefix comes last. *)
Fixpoint run_star (cl : cclass) (s : gostring) : list (gostring * gostring) :=
  match s with
  | c :: s' =>
      if cmatch cl c
      then (prod_map (cons c) id <$> run_star cl s') ++ [([], s)]
      else [([], s)]
  | [] => [([], [])]
  end.

Definition run_plus (cl : cclass) (s : gostring) : list (gostring * gostring) :=
  match s with
  | c :: s' => if cmatch cl c then prod_map (cons c) id <$> run_star cl s' else []
  | [] => []
  end.

(** [run r pos s caps]: the matches of [r] at offset [pos] of the text,
    where [s] is the text from [pos] on, in the order a backtracking
    search tries them.  A match is the matched bytes, the text behind
    them and the captures. *)
Fixpoint run (r : regex) (pos : nat) (s : gostring) (caps : captures)
  : list (gostring * gostring * captures) :=
  match r with
  | RLit l =>
      if Strings.HasPrefix s l then [(l, drop (length l) s, caps)] else []
  | RPlus cl => (λ '(m, s'), (m, s', caps)) <$> run_plus cl s
  | RGroup n r1 =>
      (λ '(m, s', c), (m, s', <[n := m]> c)) <$> run r1 pos s caps
  | RSeq r1 r2 =>
      '(m1, s1, c1) ← run r1 pos s caps;
      (λ '(m2, s2, c2), (m1 ++ m2, s2, c2)) <$> run r2 (pos + length m1) s1 c1
  | RBegin => if bool_decide (pos = 0) then [([], s, caps)] else []
  | REnd => if bool_decide (s = []) then [([], s, caps)] else []
  end.

(** The number of capture groups of a pattern. *)
Fixpoint NumSubexp (r : regex) : nat :=
  match r with
  | RGroup n r1 => n `max` NumSubexp r1
  | RSeq r1 r2 => NumSubexp r1 `max` NumSubexp r2
  | _ => 0
  end.

(** The leftmost match: try offset [pos], then the next ones, up to and
    including the end of the text.  Slot 0 receives the whole match. *)
Fixpoint find_at (r : regex) (pos : nat) (s : gostring) : option captures :=
  match run r pos s (replicate (S (NumSubexp r)) []) with
  | (m, _, caps) :: _ => Some (<[0 := m]> caps)
  | [] =>
      match s with
      | [] => None
      | _ :: s' => find_at r (S pos) s'
      end
  end.

(** [FindStringSubmatch]: the whole match and the groups, or the empty
    list (Go's [nil]) when the pattern matches nowhere. *)
Definition FindStringSubmatch (r : regex) (s : gostring) : list gostring :=
  default [] (find_at r 0 s).

End Regexp.

Import Regexp.

(** ** The DMI value *)

(** [fmt.Errorf msg]. *)
Inductive error : Type := Errorf (msg : string).

(** [const DMIDecodeBinary]. *)
Definition DMIDecodeBinary : gostring := go "dmidecode".

(** [type DMI struct]: [Data] maps a handle to its record, a record maps
    an attribute name to its value.  [Data] is a map that [New] has made
    (the parser writes to it, which Go allows on a made map only). *)
Record DMI : Type := mkDMI {
  Data : gmap gostring (gmap gostring gostring);
  Binary : gostring
}.

(** [func New() *DMI]. *)
Definition New : DMI := {| Data := ∅; Binary := DMIDecodeBinary |}.

(** [m[k]] on a Go map of strings: the value, or the zero value [""] when
    the key is absent. *)
Definition index (m : gmap gostring gostring) (k : gostring) : gostring :=
  default [] (m !! k).

(** [d.Data[h] = make(map[string]string)]. *)
Definition make_record (h : gostring) (d : DMI) : DMI :=
  {| Data := <[h := ∅]> (Data d); Binary := Binary d |}.

(** [d.Data[h][k] = v].  The parser writes only to the record it has just
    made, so [d.Data[h]] is present at every use. *)
Definition set_attr (h k v : gostring) (d : DMI) : DMI :=
  {| Data := alter (<[k := v]>) h (Data d); Binary := Binary d |}.

(** ** ParseDmidecode *)

(** ["^Handle\\s+(.+),\\s+DMI\\s+type\\s+(\\d+),\\s+(\\d+)\\s+bytes$"] *)
Definition handleRegex : regex :=
  RBegin ⋅ RLit (go "Handle") ⋅ RPlus CSpace ⋅ RGroup 1 (RPlus CAny)
  ⋅ RLit (go ",") ⋅ RPlus CSpace ⋅ RLit (go "DMI") ⋅ RPlus CSpace
  ⋅ RLit (go "type") ⋅ RPlus CSpace ⋅ RGroup 2 (RPlus CDigit)
  ⋅ RLit (go ",") ⋅ RPlus CSpace ⋅ RGroup 3 (RPlus CDigit)
  ⋅ RPlus CSpace ⋅ RLit (go "bytes") ⋅ REnd.

(** ["^\\t\\t(.+)$"] *)
Definition inBlockRegex : regex :=
  RBegin ⋅ RLit (go "\t\t") ⋅ RGroup 1 (RPlus CAny) ⋅ REnd.

(** ["\\t(.+):\\s+(.+)$"] *)
Definition recordRegex : regex :=
  RLit (go "\t") ⋅ RGroup 1 (RPlus CAny) ⋅ RLit (go ":") ⋅ RPlus CSpace
  ⋅ RGroup 2 (RPlus CAny) ⋅ REnd.

(** ["\\t(.+):$"] *)
Definition recordRegex2 : regex :=
  RLit (go "\t") ⋅ RGroup 1 (RPlus CAny) ⋅ RLit (go ":") ⋅ REnd.

(** The variables of the loop over the lines of one record. *)
Record scan_state : Type := mkScan {
  inBlockElement : gostring;
  inBlockList : gostring;
  dmi : DMI
}.

(** The part of the loop body behind the [\t\t] test: a [key: value]
    line, else the opening line of an array, else nothing. *)
Definition scan_normal (dmiHandle line : gostring) (st : scan_state)
  : scan_state :=
  let recordData := FindStringSubmatch recordRegex line in
  if bool_decide (0 < length recordData) then
    mkScan (inBlockElement st) (inBlockList st)
      (set_attr dmiHandle (recordData !!! 1) (recordData !!! 2) (dmi st))
  else
    let recordData2 := FindStringSubmatch recordRegex2 line in
    if bool_decide (0 < length recordData2) then
      mkScan (recordData2 !!! 1) (inBlockList st) (dmi st)
    else st.

(** One pass of [for i := 2; i < len(recordElements); i++] on the line
    [recordElements[i]]. *)
Definition scan_line (dmiHandle : gostring) (st : scan_state)
    (line : gostring) : scan_state :=
  if bool_decide (inBlockElement st ≠ []) then
    let inBlockData := FindStringSubmatch inBlockRegex line in
    if bool_decide (0 < length inBlockData) then
      let inBlockList' :=
        if bool_decide (length (inBlockList st) = 0)
        then inBlockData !!! 1
        else inBlockList st ++ go "\t\t" ++ inBlockData !!! 1 in
      mkScan (inBlockElement st) inBlockList'
        (set_attr dmiHandle (inBlockElement st) inBlockList' (dmi st))
    else
      scan_normal dmiHandle line (mkScan [] (inBlockList st) (dmi st))
  else scan_normal dmiHandle line st.

(** The body of [for _, record := range splitOutput]. *)
Definition parse_record (d : DMI) (record : gostring) : DMI :=
  let recordElements := Strings.Split record (go "\n") in
  if bool_decide (length recordElements < 3) then d
  else
    let handleData := FindStringSubmatch handleRegex (recordElements !!! 0) in
    if bool_decide (length handleData = 0) then d
    else
      let dmiHandle := handleData !!! 1 in
      let d := make_record dmiHandle d in
      let d := set_attr dmiHandle (go "DMIType") (handleData !!! 2) d in
      let d := set_attr dmiHandle (go "DMISize") (handleData !!! 3) d in
      let d := set_attr dmiHandle (go "DMIName") (recordElements !!! 1) d in
      dmi (foldl (scan_line dmiHandle) (mkScan [] [] d)
             (drop 2 recordElements)).

Definition EmptyResult : error := Errorf "unable to parse 'dmidecode' output".

(** [func (d *DMI) ParseDmidecode(output string) error]: the error
    ([None] for Go's [nil]) and the value [d] points to afterwards. *)
Definition ParseDmidecode (output : gostring) (d : DMI) : option error * DMI :=
  let splitOutput := Strings.Split output (go "\n\n") in
  let d := foldl parse_record d splitOutput in
  if bool_decide (size (Data d) = 0) then (Some EmptyResult, d)
  else (None, d).

(** ** Queries *)

Definition NotInitialized : error :=
  Errorf "DMI data is empty; make sure to .Run() first".

(** [for _, v := range d.Data { if v[param] == value { return v } }] over
    the entries in the order the loop visits them. *)
Fixpoint range_search (param value : gostring)
    (entries : list (gostring * gmap gostring gostring))
  : option (gmap gostring gostring) :=
  match entries with
  | [] => None
  | (_, v) :: entries' =>
      if bool_decide (index v param = value) then Some v
      else range_search param value entries'
  end.

(** Go leaves the order in which [range] visits a map open: a run of the
    loop visits the entries of [d.Data] in some order [order], each
    entry once. *)
Definition iteration_order (d : DMI)
    (order : list (gostring * gmap gostring gostring)) : Prop :=
  order ≡ₚ map_to_list (Data d).

(** [func (d *DMI) GenericSearchBy(param, value string)
    (map[string]string, error)] for a run whose loop visits the table in
    [order]: the map returned ([None] for [nil]), the error, and the
    value [d] points to afterwards. *)
Definition GenericSearchBy
    (order : list (gostring * gmap gostring gostring))
    (param value : gostring) (d : DMI)
  : option (gmap gostring gostring) * option error * DMI :=
  if bool_decide (size (Data d) = 0) then (None, Some NotInitialized, d)
  else
    match range_search param value order with
    | Some v => (Some v, None, d)
    | None => (Some ∅, None, d)
    end.

(** [func (d *DMI) SearchByName(name string)]. *)
Definition SearchByName
    (order : list (gostring * gmap gostring gostring))
    (name : gostring) (d : DMI) :=
  GenericSearchBy order (go "DMIName") name d.

(** [strconv.Itoa]. *)
Definition Itoa (i : Z) : gostring :=
  list_ascii_of_string (NilEmpty.string_of_int (Z.to_int i)).

(** [func (d *DMI) SearchByType(id int)]. *)
Definition SearchByType
    (order : list (gostring * gmap gostring gostring))
    (id : Z) (d : DMI) :=
  GenericSearchBy order (go "DMIType") (Itoa id) d.

(** ** The invoker: FindBin, ExecDmidecode, Run

    These three reach outside the program.  What they see of the
    machine is taken as given: the answer of [os.Stat] for a path, and
    the result of running a command and reading its standard output. *)

(** [os.FileInfo], of which the code asks [IsDir()] only. *)
Record FileInfo : Type := mkFileInfo { IsDir : bool }.

(** [Stat path] is [None] when [os.Stat] returns an error (the code
    tests the error and never reads it); [Output name] is the pair that
    [exec.Command(name).Output()] returns. *)
Record OS : Type := mkOS {
  Stat : gostring → option FileInfo;
  Output : gostring → gostring * option error
}.

(** [locations := []string{"/sbin", "/usr/sbin", "/usr/local/sbin"}] *)
Definition locations : list gostring :=
  [go "/sbin"; go "/usr/sbin"; go "/usr/local/sbin"].

(** [for _, path := range locations] of [FindBin]: the path returned
    from inside the loop, [None] when the loop runs to its end. *)
Fixpoint FindBin_loop (os : OS) (binary : gostring) (paths : list gostring)
  : option gostring :=
  match paths with
  | [] => None
  | path :: paths' =>
      let lookup := path ++ go "/" ++ binary in
      match Stat os (path ++ go "/" ++ binary) with
      | None => FindBin_loop os binary paths'
      | Some fileInfo =>
          if negb (IsDir fileInfo) then Some lookup
          else FindBin_loop os binary paths'
      end
  end.

(** [func (d *DMI) FindBin(binary string) (string, error)]; the receiver
    is not used. *)
Definition FindBin (os : OS) (binary : gostring) : gostring * option error :=
  match FindBin_loop os binary locations with
  | Some lookup => (lookup, None)
  | None =>
      ([], Some (Errorf ("Unable to find the '"
                         ++ string_of_list_ascii binary ++ "' binary")))
  end.

(** [func (d *DMI) ExecDmidecode(binary string) (string, error)]; the
    receiver is not used. *)
Definition ExecDmidecode (os : OS) (binary : gostring)
  : gostring * option error :=
  let '(output, err) := Output os binary in
  match err with
  | Some e => ([], Some e)
  | None => (output, None)
  end.

(** [func (d *DMI) Run() error]: the error and the value [d] points to
    afterwards. *)
Definition Run (os : OS) (d : DMI) : option error * DMI :=
  let '(bin, err) := FindBin os (Binary d) in
  match err with
  | Some e => (Some e, d)
  | None =>
      let '(output, err) := ExecDmidecode os bin in
      match err with
      | Some e => (Some e, d)
      | None =>
          match ParseDmidecode output d with
          | (Some e, d') => (Some e, d')
          | (None, d') => (None, d')
          end
      end
  end.

(** ** Views of the parser used in the statements *)

Definition DMIType : gostring := go "DMIType".
Definition DMISize : gostring := go "DMISize".
Definition DMIName : gostring := go "DMIName".

(** The loop variables with the record being filled instead of the whole
    table. *)
Definition lift (h : gostring) (D : gmap gostring (gmap gostring gostring))
    (B : gostring) (s : gostring * gostring * gmap gostring gostring)
  : scan_state :=
  mkScan s.1.1 s.1.2 (mkDMI (<[h := s.2]> D) B).

(** [scan_line] run on a table that holds the one record [s.2]. *)
Definition scan_line_rec (s : gostring * gostring * gmap gostring gostring)
    (line : gostring) : gostring * gostring * gmap gostring gostring :=
  let st := scan_line [] (lift [] ∅ [] s) line in
  (inBlockElement st, inBlockList st, Data (dmi st) !!! ([] : gostring)).

(** What the scan of the attribute [lines] makes of the record [r]. *)
Definition attr_scan (lines : list gostring) (r : gmap gostring gostring)
  : gmap gostring gostring :=
  (foldl scan_line_rec ([], [], r) lines).2.

(** The attributes the lines of a block behind the name line define by
    themselves. *)
Definition block_attrs (record : gostring) : gmap gostring gostring :=
  attr_scan (drop 2 (Strings.Split record (go "\n"))) ∅.

(** The handle and the record a block yields, [None] for a block the
    parser skips. *)
Definition block_entry (record : gostring)
  : option (gostring * gmap gostring gostring) :=
  let recordElements := Strings.Split record (go "\n") in
  if bool_decide (length recordElements < 3) then None
  else
    let handleData := FindStringSubmatch handleRegex (recordElements !!! 0) in
    if bool_decide (length handleData = 0) then None
    else
      Some (handleData !!! 1,
            attr_scan (drop 2 recordElements)
              (<[DMIName := recordElements !!! 1]>
                 (<[DMISize := handleData !!! 3]>
                    (<[DMIType := handleData !!! 2]> ∅)))).

(** The table [D] after one more block. *)
Definition add_entry (D : gmap gostring (gmap gostring gostring))
    (record : gostring) : gmap gostring (gmap gostring gostring) :=
  match block_entry record with
  | Some (h, r) => <[h := r]> D
  | None => D
  end.

(** A non-empty string of decimal digits. *)
Definition digits (s : gostring) : Prop :=
  s ≠ [] ∧ Forall (λ c, is_digit c = true) s.

(** A non-empty string of white space. *)
Definition spaces (s : gostring) : Prop :=
  s ≠ [] ∧ Forall (λ c, is_space c = true) s.

(** What it is for [r] to match the bytes [m] at offset [pos], with
    [rest] behind them, taking the captures [c] to [c']. *)
Fixpoint matches (r : regex) (pos : nat) (m rest : gostring)
    (c c' : captures) : Prop :=
  match r with
  | RLit l => m = l ∧ c' = c
  | RPlus cl => m ≠ [] ∧ Forall (λ x, cmatch cl x = true) m ∧ c' = c
  | RGroup n r1 => ∃ c1, matches r1 pos m rest c c1 ∧ c' = <[n := m]> c1
  | RSeq r1 r2 =>
      ∃ m1 m2 c1, m = m1 ++ m2
        ∧ matches r1 pos m1 (m2 ++ rest) c c1
        ∧ matches r2 (pos + length m1) m2 rest c1 c'
  | RBegin => m = [] ∧ pos = 0 ∧ c' = c
  | REnd => m = [] ∧ rest = [] ∧ c' = c
  end.

(** The match a backtracking search finds first. *)
Definition first_match (r : regex) (pos : nat) (s : gostring) (c : captures)
  : option (gostring * gostring * captures) :=
  head (run r pos s c).

(** The text does not go on with a byte of the class. *)
Definition stops (cl : cclass) (s : gostring) : Prop :=
  match s with
  | [] => True
  | x :: _ => cmatch cl x = false
  end.

(** A header line: [Handle <h>, <label> type <t>, <sz> bytes], with
    white space where the pattern has [\s+]. *)
Definition header_line (label h t sz line : gostring) : Prop :=
  ∃ w1 w2 w3 w4 w5 w6,
    spaces w1 ∧ spaces w2 ∧ spaces w3 ∧ spaces w4 ∧ spaces w5 ∧ spaces w6
    ∧ digits t ∧ digits sz
    ∧ line = go "Handle" ++ w1 ++ h ++ go "," ++ w2 ++ label ++ w3
             ++ go "type" ++ w4 ++ t ++ go "," ++ w5 ++ sz ++ w6
             ++ go "bytes".

(** The part of the header pattern behind the handle. *)
Definition tailRegex : regex :=
  RLit (go ",") ⋅ RPlus CSpace ⋅ RLit (go "DMI") ⋅ RPlus CSpace
  ⋅ RLit (go "type") ⋅ RPlus CSpace ⋅ RGroup 2 (RPlus CDigit)
  ⋅ RLit (go ",") ⋅ RPlus CSpace ⋅ RGroup 3 (RPlus CDigit)
  ⋅ RPlus CSpace ⋅ RLit (go "bytes") ⋅ REnd.

(** The number of commas of a string. *)
Definition commas (s : gostring) : nat :=
  length (filter (λ x, x = ","%char) s).

(** A handle token starts with a byte that is not white space. *)
Definition handle_token (h : gostring) : Prop :=
  ∃ x h', h = x :: h' ∧ is_space x = false.

(** A record whose attribute names are not empty and whose values are
    not empty either, the name of the record apart. *)
Definition well_named (r : gmap gostring gostring) : Prop :=
  ∀ k v, r !! k = Some v → k ≠ [] ∧ (v = [] → k = DMIName).

(** A path under which [FindBin] accepts the binary: [os.Stat] answers
    for it, and not with a directory. *)
Definition usable (os : OS) (binary path : gostring) : Prop :=
  ∃ fileInfo, Stat os (path ++ go "/" ++ binary) = Some fileInfo
    ∧ IsDir fileInfo = false.

(** ** Inputs used as examples *)

(** The example of the specification. *)
Definition system_report : gostring :=
  go "Handle 0x0001, DMI type 1, 27 bytes\nSystem Information\n\tManufacturer: Acme\n\tVersion:\n\t\tv1\n\t\tv2\n".

(** One record with two arrays. *)
Definition two_arrays : gostring :=
  go "Handle 0x0004, DMI type 4, 42 bytes\nProcessor Information\n\tFlags:\n\t\tFPU\n\t\tVME\n\tCharacteristics:\n\t\t64-bit capable".

(** Two reports with one record each, under different handles. *)
Definition first_report : gostring :=
  go "Handle 0x0001, DMI type 1, 27 bytes\nSystem Information\n\tManufacturer: Acme".

Definition second_report : gostring :=
  go "Handle 0x0002, DMI type 2, 15 bytes\nBase Board Information\n\tManufacturer: Acme".

(** A block whose header has another label than [DMI]. *)
Definition smbios_block : gostring :=
  go "Handle 0x0001, SMBIOS type 1, 27 bytes\nSystem Information\n\tManufacturer: Acme".

(** A block with an attribute line named as a reserved attribute. *)
Definition shadowed_type : gostring :=
  go "Handle 0x0001, DMI type 1, 27 bytes\nSystem Information\n\tDMIType: none".

(** A block that opens an array named as a reserved attribute and has no
    array line. *)
Definition opened_type : gostring :=
  go "Handle 0x0001, DMI type 1, 27 bytes\nSystem Information\n\tDMIType:".

(** A table with one record. *)
Definition one_record : gmap gostring gostring :=
  {[ DMIName := go "System Information" ]}.

Definition one_table : DMI :=
  mkDMI {[ go "0x0001" := one_record ]} DMIDecodeBinary.

(** Two blocks under one handle. *)
Definition second_block : gostring :=
  go "Handle 0x0001, DMI type 2, 15 bytes\nBase Board Information\n\tSerial Number: 7".

Definition repeated_handle : gostring :=
  first_report ++ go "\n\n" ++ second_block.

(** A table with two records of one name. *)
Definition small_module : gmap gostring gostring :=
  <[go "Size" := go "8 GB"]> {[ DMIName := go "Memory Device" ]}.

Definition large_module : gmap gostring gostring :=
  <[go "Size" := go "16 GB"]> {[ DMIName := go "Memory Device" ]}.

Definition two_modules : DMI :=
  mkDMI (<[go "0x0011" := small_module]> {[ go "0x0012" := large_module ]})
    DMIDecodeBinary.

(** Two blocks under one handle, the second of two lines only. *)
Definition short_second_block : gostring :=
  go "Handle 0x0001, DMI type 2, 15 bytes\nBase Board Information".

Definition short_last : gostring :=
  first_report ++ go "\n\n" ++ short_second_block.

(** A scan inside the array [Version] of the record [0x0001]. *)
Definition in_version_array : scan_state :=
  mkScan (go "Version") (go "v1")
    (mkDMI {[ go "0x0001" := {[ go "Version" := go "v1" ]} ]} DMIDecodeBinary).

(** * Properties *)

(** ** The scan writes to the record of its handle only *)

Section scan.
Context (h : gostring) (D : gmap gostring (gmap gostring gostring)).
Context (B : gostring).

Lemma set_attr_lift e l r k v :
  set_attr h k v (dmi (lift h D B (e, l, r)))
  = dmi (lift h D B (e, l, <[k := v]> r)).
Proof. unfold set_attr, lift; simpl. by rewrite alter_insert_eq. Qed.

Lemma scan_normal_lift e l r line :
  ∃ e' r', scan_normal h line (lift h D B (e, l, r)) = lift h D B (e', l, r')
    ∧ ∀ h' D' B', scan_normal h' line (lift h' D' B' (e, l, r))
                  = lift h' D' B' (e', l, r').
Proof.
  unfold scan_normal. simpl.
  destruct (bool_decide (0 < length (FindStringSubmatch recordRegex line))).
  - eexists e, _. split; [|intros h' D' B'];
      unfold lift, set_attr; simpl; by rewrite alter_insert_eq.
  - destruct (bool_decide (0 < length (FindStringSubmatch recordRegex2 line)));
      eexists _, r; split; try intros h' D' B'; reflexivity.
Qed.

Lemma scan_line_lift s line :
  scan_line h (lift h D B s) line = lift h D B (scan_line_rec s line).
Proof.
  destruct s as [[e l] r]. unfold scan_line_rec, scan_line. simpl.
  destruct (bool_decide (e ≠ [])).
  - destruct (bool_decide (0 < length (FindStringSubmatch inBlockRegex line))).
    + unfold lift, set_attr; simpl.
      rewrite !alter_insert_eq, lookup_total_insert_eq. done.
    + destruct (scan_normal_lift [] l r line) as (e' & r' & _ & Heq).
      change (mkScan [] l (mkDMI (<[h := r]> D) B))
        with (lift h D B ([], l, r)).
      change (mkScan [] l (mkDMI (<[[] := r]> ∅) []))
        with (lift [] ∅ [] ([], l, r)).
      rewrite !Heq. unfold lift; simpl. by rewrite lookup_total_insert_eq.
  - destruct (scan_normal_lift e l r line) as (e' & r' & _ & Heq).
    change (mkScan e l (mkDMI (<[h := r]> D) B))
      with (lift h D B (e, l, r)).
    change (mkScan e l (mkDMI (<[[] := r]> ∅) []))
      with (lift [] ∅ [] (e, l, r)).
    rewrite !Heq. unfold lift; simpl. by rewrite lookup_total_insert_eq.
Qed.

Lemma scan_lines_lift lines s :
  foldl (scan_line h) (lift h D B s) lines
  = lift h D B (foldl scan_line_rec s lines).
Proof.
  revert s. induction lines as [|line lines IH]; intros s; simpl; [done|].
  by rewrite scan_line_lift, IH.
Qed.
End scan.

(** [parse_record] adds the entry of the block, and nothing else. *)
Lemma parse_record_entry d record :
  parse_record d record = mkDMI (add_entry (Data d) record) (Binary d).
Proof.
  unfold parse_record, add_entry, block_entry.
  destruct (bool_decide (length (Strings.Split record (go "\n")) < 3));
    [by destruct d|].
  destruct (bool_decide (length (FindStringSubmatch handleRegex
              (Strings.Split record (go "\n") !!! 0)) = 0));
    [by destruct d|].
  set (hd := FindStringSubmatch handleRegex _).
  set (els := Strings.Split record (go "\n")).
  unfold make_record, set_attr; simpl.
  rewrite !alter_insert_eq.
  match goal with
  | |- dmi (foldl _ (mkScan [] [] (mkDMI (<[?h := ?r]> ?D) ?B)) _) = _ =>
      change (mkScan [] [] (mkDMI (<[h := r]> D) B))
        with (lift h D B ([], [], r))
  end.
  rewrite scan_lines_lift. reflexivity.
Qed.

Lemma parse_records_entries d records :
  foldl parse_record d records
  = mkDMI (foldl add_entry (Data d) records) (Binary d).
Proof.
  revert d. induction records as [|b bs IH]; intros d; simpl; [by destruct d|].
  by rewrite IH, parse_record_entry.
Qed.

(** ** The table as a fold over the blocks *)

Lemma add_entries_union D1 D2 records :
  foldl add_entry (D1 ∪ D2) records = foldl add_entry D1 records ∪ D2.
Proof.
  revert D1. induction records as [|b bs IH]; intros D1; simpl; [done|].
  rewrite <- IH. f_equal. unfold add_entry.
  destruct (block_entry b) as [[h r]|]; [|done].
  by rewrite insert_union_l.
Qed.

Lemma add_entries_skip D records h :
  (∀ b r, b ∈ records → block_entry b ≠ Some (h, r)) →
  foldl add_entry D records !! h = D !! h.
Proof.
  revert D. induction records as [|b bs IH]; intros D Hno; simpl; [done|].
  rewrite IH by (intros b' r' Hin; apply Hno; by right).
  unfold add_entry. destruct (block_entry b) as [[h' r']|] eqn:Hb; [|done].
  rewrite lookup_insert_ne; [done|].
  intros ->. by apply (Hno b r'); [left|].
Qed.

Lemma add_entries_last D pre b post h r :
  block_entry b = Some (h, r) →
  (∀ b' r', b' ∈ post → block_entry b' ≠ Some (h, r')) →
  foldl add_entry D (pre ++ b :: post) !! h = Some r.
Proof.
  intros Hb Hpost. rewrite foldl_app. simpl.
  rewrite add_entries_skip by done.
  unfold add_entry at 1. rewrite Hb. by rewrite lookup_insert_eq.
Qed.

Lemma add_entries_origin D records h r :
  foldl add_entry D records !! h = Some r →
  D !! h = Some r ∨ ∃ b, b ∈ records ∧ block_entry b = Some (h, r).
Proof.
  revert D. induction records as [|b bs IH]; intros D; simpl; [by left|].
  intros [Hd|(b' & Hin & Hb')]%IH.
  - unfold add_entry in Hd. destruct (block_entry b) as [[h' r']|] eqn:Hb.
    + destruct (decide (h' = h)) as [->|Hne].
      * rewrite lookup_insert_eq in Hd. simplify_eq.
        right. exists b. split; [by left|done].
      * rewrite lookup_insert_ne in Hd by done. by left.
    + by left.
  - right. exists b'. split; [by right|done].
Qed.

Lemma add_entries_keeps D records h :
  is_Some (D !! h) → is_Some (foldl add_entry D records !! h).
Proof.
  revert D. induction records as [|b bs IH]; intros D Hd; simpl; [done|].
  apply IH. unfold add_entry. destruct (block_entry b) as [[h' r']|]; [|done].
  destruct (decide (h' = h)) as [->|Hne].
  - rewrite lookup_insert_eq. eauto.
  - by rewrite lookup_insert_ne.
Qed.

(** What a block yields alone is what [parse_record] puts into a fresh
    table. *)
Lemma parse_record_New_lookup b h r :
  Data (parse_record New b) !! h = Some r ↔ block_entry b = Some (h, r).
Proof.
  rewrite parse_record_entry. simpl. unfold add_entry.
  destruct (block_entry b) as [[h' r']|].
  - destruct (decide (h' = h)) as [->|Hne].
    + rewrite lookup_insert_eq. split; intros; by simplify_eq.
    + rewrite lookup_insert_ne by done. split; intros; by simplify_eq.
  - done.
Qed.

Lemma parse_record_New_None b h :
  Data (parse_record New b) !! h = None ↔ ∀ r, block_entry b ≠ Some (h, r).
Proof.
  split.
  - intros Hn r Hr%parse_record_New_lookup. congruence.
  - intros Hno. destruct (Data (parse_record New b) !! h) as [r|] eqn:Hr; [|done].
    apply parse_record_New_lookup in Hr. by destruct (Hno r).
Qed.

Lemma ParseDmidecode_Data text d :
  Data (ParseDmidecode text d).2
  = foldl add_entry (Data d) (Strings.Split text (go "\n\n")).
Proof.
  unfold ParseDmidecode. rewrite parse_records_entries.
  by destruct (bool_decide _).
Qed.

Lemma ParseDmidecode_Binary text d :
  Binary (ParseDmidecode text d).2 = Binary d.
Proof.
  unfold ParseDmidecode. rewrite parse_records_entries.
  by destruct (bool_decide _).
Qed.

Lemma ParseDmidecode_error text d :
  (ParseDmidecode text d).1
  = if bool_decide (Data (ParseDmidecode text d).2 = ∅)
    then Some EmptyResult else None.
Proof.
  unfold ParseDmidecode.
  destruct (bool_decide (size _ = 0)) eqn:Hsz; simpl.
  - apply bool_decide_eq_true_1, map_size_empty_iff in Hsz.
    by rewrite bool_decide_eq_true_2.
  - apply bool_decide_eq_false_1 in Hsz.
    rewrite bool_decide_eq_false_2; [done|].
    by apply map_size_non_empty_iff.
Qed.

(** ** The claims on the blocks and the table *)

(** C7: a block that splits into fewer than three lines leaves the table
    as it is, so the table of an input is the table of its blocks of
    three lines or more. *)
Theorem short_block_no_entry record d text :
  length (Strings.Split record (go "\n")) < 3 →
  parse_record d record = d
  ∧ (ParseDmidecode text d).2
    = foldl parse_record d
        (filter (λ b, 3 ≤ length (Strings.Split b (go "\n")))
           (Strings.Split text (go "\n\n"))).
Proof.
  intros Hshort. split.
  - unfold parse_record. by rewrite bool_decide_eq_true_2.
  - unfold ParseDmidecode.
    assert (∀ bs d0, foldl parse_record d0 bs
      = foldl parse_record d0
          (filter (λ b, 3 ≤ length (Strings.Split b (go "\n"))) bs)) as Hf.
    { induction bs as [|b bs IH]; intros d0; [done|].
      rewrite filter_cons. case_decide as Hb; cbn [foldl].
      - apply IH.
      - rewrite <- IH. f_equal. unfold parse_record.
        rewrite bool_decide_eq_true_2; [done|lia]. }
    rewrite <- Hf. by destruct (bool_decide _).
Qed.

Lemma short_block_no_entry_witness :
  parse_record New (go "Handle 0x0001, DMI type 1, 27 bytes\nSystem Information") = New.
Proof.
  refine (proj1 (short_block_no_entry
    (go "Handle 0x0001, DMI type 1, 27 bytes\nSystem Information") New [] _)).
  vm_compute. lia.
Defined.

Lemma set_attr_lookup h k v d r :
  Data d !! h = Some r → Data (set_attr h k v d) !! h = Some (<[k := v]> r).
Proof. intros Hr. unfold set_attr. cbn [Data]. by rewrite lookup_alter_eq, Hr. Qed.

Lemma parse_no_header text d :
  Forall (λ b, FindStringSubmatch handleRegex
                 (Strings.Split b (go "\n") !!! 0) = [])
    (Strings.Split text (go "\n\n")) →
  foldl parse_record d (Strings.Split text (go "\n\n")) = d.
Proof.
  intros Hall. induction Hall as [|b bs Hb _ IH]; [done|]. cbn [foldl].
  assert (parse_record d b = d) as ->; [|done].
  unfold parse_record. case_bool_decide; [done|]. by rewrite Hb.
Qed.

Lemma parse_keeps_filled text d :
  Data d ≠ ∅ → Data (ParseDmidecode text d).2 ≠ ∅.
Proof.
  intros Hd. rewrite ParseDmidecode_Data.
  apply map_choose in Hd as (h & r & Hr).
  destruct (add_entries_keeps (Data d) (Strings.Split text (go "\n\n")) h)
    as [r' Hr']; [eauto|].
  intros Hempty. by rewrite Hempty, lookup_empty in Hr'.
Qed.

(** C2, as the code has it: a parse does not make the table, it writes
    into the table it finds.  Afterwards the table is the records of the
    text (those a parse of the text into an empty table gives) together
    with the table of before: under a handle of the text it holds the
    record of the text and nothing of the earlier record, every other
    record stays as it was, and [Binary] stays.  When the table was
    empty before, the table holds the records of the text and no
    other. *)
Theorem parse_accumulates text d :
  Data (ParseDmidecode text d).2 = Data (ParseDmidecode text New).2 ∪ Data d
  ∧ Binary (ParseDmidecode text d).2 = Binary d
  ∧ (∀ h r, Data (ParseDmidecode text New).2 !! h = Some r →
       Data (ParseDmidecode text d).2 !! h = Some r)
  ∧ (∀ h, Data (ParseDmidecode text New).2 !! h = None →
       Data (ParseDmidecode text d).2 !! h = Data d !! h)
  ∧ (Data d = ∅ →
     Data (ParseDmidecode text d).2 = Data (ParseDmidecode text New).2).
Proof.
  assert (Data (ParseDmidecode text d).2
          = Data (ParseDmidecode text New).2 ∪ Data d) as Hunion.
  { rewrite !ParseDmidecode_Data. cbn [Data New].
    rewrite <- add_entries_union. by rewrite (left_id_L ∅ (∪)). }
  split; [done|]. split; [apply ParseDmidecode_Binary|].
  split; [|split].
  - intros h r Hr. rewrite Hunion. by apply lookup_union_Some_l.
  - intros h Hr. rewrite Hunion. by apply lookup_union_r.
  - intros Hd. by rewrite Hunion, Hd, (right_id_L ∅ (∪)).
Qed.

(** C2 fails: the second parse succeeds, its text has no block for the
    handle 0x0001, and the table still holds the record of the first
    parse for it. *)
Lemma parse_keeps_earlier_records :
  (ParseDmidecode second_report (ParseDmidecode first_report New).2).1 = None
  ∧ Data (ParseDmidecode second_report New).2 !! go "0x0001" = None
  ∧ Data (ParseDmidecode second_report (ParseDmidecode first_report New).2).2
      !! go "0x0001" ≫= (.!! DMIName)
    = Some (go "System Information").
Proof.
  split; [vm_compute; reflexivity|].
  split; vm_compute; reflexivity.
Qed.

(** C4, as the code has it: the error tells that the table of the
    receiver is empty after the parse.  On a receiver whose table is
    empty, as [New] makes it, the empty input and every input none of
    whose blocks has a first line matching the header pattern give the
    error and leave the receiver as it was; for every receiver, a parse
    that returns no error leaves a table with an entry.  On a receiver
    whose table holds a record the parse returns no error, whatever the
    input. *)
Theorem empty_result text d :
  (Data d = ∅ → ParseDmidecode [] d = (Some EmptyResult, d))
  ∧ (Data d = ∅ →
     Forall (λ b, FindStringSubmatch handleRegex
                    (Strings.Split b (go "\n") !!! 0) = [])
       (Strings.Split text (go "\n\n")) →
     ParseDmidecode text d = (Some EmptyResult, d))
  ∧ ((ParseDmidecode text d).1 = None → Data (ParseDmidecode text d).2 ≠ ∅)
  ∧ (Data (ParseDmidecode text d).2 = ∅ →
     (ParseDmidecode text d).1 = Some EmptyResult)
  ∧ (Data d ≠ ∅ → (ParseDmidecode text d).1 = None).
Proof.
  assert (∀ text0, Data d = ∅ →
            Forall (λ b, FindStringSubmatch handleRegex
                           (Strings.Split b (go "\n") !!! 0) = [])
              (Strings.Split text0 (go "\n\n")) →
            ParseDmidecode text0 d = (Some EmptyResult, d)) as Hnone.
  { intros text0 Hd Hall. unfold ParseDmidecode.
    rewrite (parse_no_header text0 d Hall), Hd, map_size_empty. done. }
  split; [|split; [by apply Hnone|split; [|split]]].
  - intros Hd. apply Hnone; [done|].
    match goal with
    | |- Forall _ ?l => let l' := eval vm_compute in l in change l with l'
    end.
    repeat constructor.
  - rewrite ParseDmidecode_error. by case_bool_decide.
  - rewrite ParseDmidecode_error. intros ->. by rewrite bool_decide_eq_true_2.
  - intros Hd. rewrite ParseDmidecode_error.
    rewrite bool_decide_eq_false_2; [done|]. by apply parse_keeps_filled.
Qed.

Lemma empty_result_witness :
  ParseDmidecode (go "no header here\n\nnor here") New = (Some EmptyResult, New).
Proof.
  apply (empty_result (go "no header here\n\nnor here") New).
  - reflexivity.
  - match goal with
    | |- Forall _ ?l => let l' := eval vm_compute in l in change l with l'
    end.
    repeat constructor; by vm_compute.
Defined.

(** C4 fails on a receiver that holds a record: the empty input and an
    input without header line are parsed without error. *)
Lemma filled_receiver_no_error :
  (ParseDmidecode first_report New).1 = None
  ∧ (ParseDmidecode [] (ParseDmidecode first_report New).2).1 = None
  ∧ (ParseDmidecode (go "no header here")
       (ParseDmidecode first_report New).2).1 = None
  ∧ FindStringSubmatch handleRegex (go "no header here") = [].
Proof.
  split; [vm_compute; reflexivity|]. split; [vm_compute; reflexivity|].
  split; vm_compute; reflexivity.
Qed.

(** ** The claims on the line scan *)

(** C6: inside an array, a line that is not a [\t\t] line ends the array
    and is handled in the same pass as a line outside any array is.  If
    it is a [key: value] line, its value is stored: the record of the
    handle holds afterwards the value under the key, and its other
    attributes as before. *)
Theorem leaving_array_keeps_line h st line :
  inBlockElement st ≠ [] →
  FindStringSubmatch inBlockRegex line = [] →
  scan_line h st line
  = scan_line h (mkScan [] (inBlockList st) (dmi st)) line
  ∧ scan_line h st line
    = scan_normal h line (mkScan [] (inBlockList st) (dmi st))
  ∧ (∀ whole key value,
       FindStringSubmatch recordRegex line = [whole; key; value] →
       scan_line h st line
       = mkScan [] (inBlockList st) (set_attr h key value (dmi st))
       ∧ ∀ r, Data (dmi st) !! h = Some r →
           Data (dmi (scan_line h st line)) !! h = Some (<[key := value]> r)
           ∧ Data (dmi (scan_line h st line)) !! h ≫= (.!! key) = Some value
           ∧ ∀ k, k ≠ key →
               Data (dmi (scan_line h st line)) !! h ≫= (.!! k) = r !! k).
Proof.
  intros Hin Hno.
  assert (scan_line h st line
          = scan_normal h line (mkScan [] (inBlockList st) (dmi st))) as H1.
  { unfold scan_line. rewrite bool_decide_eq_true_2 by done.
    rewrite Hno. cbn [length]. by rewrite bool_decide_eq_false_2 by lia. }
  assert (scan_line h (mkScan [] (inBlockList st) (dmi st)) line
          = scan_normal h line (mkScan [] (inBlockList st) (dmi st))) as H2.
  { unfold scan_line. cbn [inBlockElement].
    rewrite bool_decide_eq_false_2; [done|]. by intros Hne. }
  split; [by rewrite H1, H2|]. split; [done|].
  intros whole key value Hrec.
  assert (scan_line h st line
          = mkScan [] (inBlockList st) (set_attr h key value (dmi st))) as H3.
  { rewrite H1. unfold scan_normal.
    rewrite Hrec. cbn [length]. by rewrite bool_decide_eq_true_2 by lia. }
  split; [done|]. intros r Hr. rewrite H3. cbn [dmi].
  rewrite (set_attr_lookup _ _ _ _ _ Hr). cbn [mbind option_bind].
  split; [done|]. split; [apply lookup_insert_eq|].
  intros k Hk. by apply lookup_insert_ne.
Qed.

Lemma leaving_array_keeps_line_witness :
  Data (dmi (scan_line (go "0x0001") in_version_array
               (go "\tSerial Number: 42"))) !! go "0x0001"
    ≫= (.!! go "Serial Number")
  = Some (go "42").
Proof.
  refine (proj1 (proj2 (proj2 (proj2 (proj2 (leaving_array_keeps_line
    (go "0x0001") in_version_array (go "\tSerial Number: 42") _ _))
    (go "\tSerial Number: 42") (go "Serial Number") (go "42") _)
    {[ go "Version" := go "v1" ]} _))).
  - vm_compute. discriminate.
  - vm_compute. reflexivity.
  - vm_compute. reflexivity.
  - apply lookup_singleton_eq.
Defined.

(** C1 fails on a record with two arrays: the value stored for the
    second array starts with the fragments of the first. *)
Theorem second_array_keeps_first_fragments :
  Data (ParseDmidecode two_arrays New).2 !! go "0x0004"
    ≫= (.!! go "Characteristics")
  = Some (go "FPU\t\tVME\t\t64-bit capable")
  ∧ Data (ParseDmidecode two_arrays New).2 !! go "0x0004" ≫= (.!! go "Flags")
    = Some (go "FPU\t\tVME").
Proof. by vm_compute. Qed.

(** ** The claims on the queries *)

Lemma range_search_Some param value entries v :
  range_search param value entries = Some v →
  ∃ h, (h, v) ∈ entries ∧ index v param = value.
Proof.
  induction entries as [|[h' v'] entries IH]; simpl; [done|].
  case_bool_decide as Heq.
  - intros [= ->]. exists h'. split; [by left|done].
  - intros (h & Hin & Hv)%IH. exists h. split; [by right|done].
Qed.

Lemma range_search_None param value entries :
  range_search param value entries = None →
  ∀ h v, (h, v) ∈ entries → index v param ≠ value.
Proof.
  induction entries as [|[h' v'] entries IH]; simpl.
  - intros _ h v Hin. by apply elem_of_nil in Hin.
  - case_bool_decide as Heq; [done|].
    intros Hn h v [[= -> ->]|Hin]%elem_of_cons; [done|]. by eapply IH.
Qed.

Lemma index_lookup (v : gmap gostring gostring) param value :
  index v param = value
  ↔ v !! param = Some value ∨ (value = [] ∧ v !! param = None).
Proof.
  unfold index. destruct (v !! param) as [x|]; simpl; split.
  - intros ->. by left.
  - by intros [[= ->]|[_ ?]].
  - intros <-. by right.
  - by intros [?|[-> _]].
Qed.

(** C5, as the code has it: the query gives the error exactly when the
    table is empty, and then no result.  On a table with entries it
    gives no error and compares [v[param] == value], where an attribute
    the record lacks reads as the empty string: a record matches when it
    holds the value under the attribute, and also when the value is
    empty and it lacks the attribute.  It returns a matching record of
    the table when there is one, and an empty map when there is none.
    For a value that is not empty, to match is to hold the value under
    the attribute.  [SearchByName] and [SearchByType] are this query on
    the name and on the type attribute. *)
Theorem search_result order param value d res err d' :
  iteration_order d order →
  GenericSearchBy order param value d = (res, err, d') →
  (err = Some NotInitialized ↔ Data d = ∅)
  ∧ (Data d = ∅ → res = None)
  ∧ (Data d ≠ ∅ → err = None)
  ∧ (Data d ≠ ∅ →
     (∀ h v, Data d !! h = Some v →
        v !! param ≠ Some value ∧ ¬ (value = [] ∧ v !! param = None)) →
     res = Some ∅)
  ∧ (Data d ≠ ∅ →
     (∃ h v, Data d !! h = Some v
        ∧ (v !! param = Some value ∨ (value = [] ∧ v !! param = None))) →
     ∃ h v, res = Some v ∧ Data d !! h = Some v
        ∧ (v !! param = Some value ∨ (value = [] ∧ v !! param = None)))
  ∧ (value ≠ [] → Data d ≠ ∅ →
     (∀ h v, Data d !! h = Some v → v !! param ≠ Some value) →
     res = Some ∅)
  ∧ (value ≠ [] → Data d ≠ ∅ →
     (∃ h v, Data d !! h = Some v ∧ v !! param = Some value) →
     ∃ h v, res = Some v ∧ Data d !! h = Some v ∧ v !! param = Some value)
  ∧ (∀ v, index v param = value
          ↔ v !! param = Some value ∨ (value = [] ∧ v !! param = None))
  ∧ (∀ name, SearchByName order name d
             = GenericSearchBy order DMIName name d)
  ∧ (∀ id, SearchByType order id d
           = GenericSearchBy order DMIType (Itoa id) d).
Proof.
  intros Hord Hres.
  assert (∀ h v, (h, v) ∈ order ↔ Data d !! h = Some v) as Hin.
  { intros h v. unfold iteration_order in Hord. rewrite Hord.
    apply elem_of_map_to_list. }
  assert ((err = Some NotInitialized ↔ Data d = ∅)
          ∧ (Data d = ∅ → res = None)
          ∧ (Data d ≠ ∅ → err = None)
          ∧ (Data d ≠ ∅ →
             (∀ h v, Data d !! h = Some v → index v param ≠ value) →
             res = Some ∅)
          ∧ (Data d ≠ ∅ →
             (∃ h v, Data d !! h = Some v ∧ index v param = value) →
             ∃ h v, res = Some v ∧ Data d !! h = Some v
                    ∧ index v param = value))
    as (Herr & Hempty & Hnil & Hnone & Hsome).
  { revert Hres. unfold GenericSearchBy.
    case_bool_decide as Hsz.
    - apply map_size_empty_iff in Hsz. intros [= <- <- <-].
      split; [done|]. split; [done|]. split; [done|]. split; done.
    - apply map_size_non_empty_iff in Hsz.
      destruct (range_search param value order) as [v|] eqn:Hs.
      + apply range_search_Some in Hs as (h & Hhv & Hv).
        apply Hin in Hhv. intros [= <- <- <-].
        split; [done|]. split; [done|]. split; [done|]. split.
        * intros _ Hno. by destruct (Hno h v).
        * intros _ _. by exists h, v.
      + pose proof (range_search_None _ _ _ Hs) as Hno. intros [= <- <- <-].
        split; [done|]. split; [done|]. split; [done|]. split; [done|].
        intros _ (h & v & Hhv & Hv). apply Hin in Hhv.
        by destruct (Hno h v). }
  split; [done|]. split; [done|]. split; [done|].
  split; [|split; [|split; [|split; [|split; [|split; done]]]]].
  - intros Hd Hno. apply Hnone; [done|]. intros h v Hv.
    rewrite index_lookup. destruct (Hno h v Hv) as [H1 H2].
    by intros [?|?].
  - intros Hd (h & v & Hv & Hm). apply index_lookup in Hm.
    destruct Hsome as (h' & v' & ? & ? & Hm'); [done|by exists h, v|].
    apply index_lookup in Hm'. by exists h', v'.
  - intros Hval Hd Hno. apply Hnone; [done|]. intros h v Hv.
    rewrite index_lookup. intros [?|[? _]]; [|done]. by destruct (Hno h v).
  - intros Hval Hd (h & v & Hv & Hm).
    destruct Hsome as (h' & v' & ? & ? & Hm'); [done| |].
    { exists h, v. split; [done|]. apply index_lookup. by left. }
    apply index_lookup in Hm' as [?|[? _]]; [|done]. by exists h', v'.
  - exact (λ v, index_lookup v param value).
Qed.

Lemma search_result_witness :
  iteration_order one_table [(go "0x0001", one_record)]
  ∧ GenericSearchBy [(go "0x0001", one_record)] DMIName
      (go "System Information") one_table
    = (Some one_record, None, one_table)
  ∧ ((None : option error) = Some NotInitialized ↔ Data one_table = ∅).
Proof.
  assert (iteration_order one_table [(go "0x0001", one_record)]) as Hord.
  { unfold iteration_order, one_table. cbn [Data].
    rewrite map_to_list_singleton. reflexivity. }
  assert (GenericSearchBy [(go "0x0001", one_record)] DMIName
            (go "System Information") one_table
          = (Some one_record, None, one_table)) as Hres.
  { vm_compute. reflexivity. }
  split; [exact Hord|]. split; [exact Hres|].
  exact (proj1 (search_result _ _ _ _ _ _ _ Hord Hres)).
Defined.

(** C5 fails for the empty value: the one record of the table has no
    attribute [Serial Number], so no record has an attribute equal to
    the value, and the query returns that record, not an empty result. *)
Lemma search_empty_value_finds_record :
  Data one_table = {[ go "0x0001" := one_record ]}
  ∧ one_record !! go "Serial Number" = None
  ∧ iteration_order one_table [(go "0x0001", one_record)]
  ∧ GenericSearchBy [(go "0x0001", one_record)] (go "Serial Number") []
      one_table
    = (Some one_record, None, one_table)
  ∧ one_record !! DMIName = Some (go "System Information").
Proof.
  split; [reflexivity|]. split; [vm_compute; reflexivity|].
  split.
  { unfold iteration_order, one_table. cbn [Data].
    rewrite map_to_list_singleton. reflexivity. }
  split; vm_compute; reflexivity.
Qed.

(** C10: a query leaves the value it is called on as it was: the table
    and [Binary] after it are those before it, whatever it returns. *)
Theorem search_frame order param value name id d :
  (GenericSearchBy order param value d).2 = d
  ∧ (SearchByName order name d).2 = d
  ∧ (SearchByType order id d).2 = d.
Proof.
  unfold SearchByName, SearchByType, GenericSearchBy.
  repeat split; case_bool_decide; try done;
    by destruct (range_search _ _ order).
Qed.

(** ** The matcher *)

Section matcher.
Import Strings.

Lemma HasPrefix_app l s : HasPrefix (l ++ s) l = true.
Proof.
  induction l as [|x l IH]; simpl; [done|].
  by rewrite Ascii.eqb_refl, IH.
Qed.

Lemma HasPrefix_inv s l : HasPrefix s l = true → ∃ rest, s = l ++ rest.
Proof.
  revert s. induction l as [|x l IH]; intros s; simpl.
  - intros _. by exists s.
  - destruct s as [|y s]; [done|].
    intros [Hxy Hl]%andb_prop. apply Ascii.eqb_eq in Hxy as ->.
    destruct (IH _ Hl) as [rest ->]. by exists rest.
Qed.

Lemma run_lit_app l s pos c : run (RLit l) pos (l ++ s) c = [(l, s, c)].
Proof. simpl. by rewrite HasPrefix_app, drop_app_length. Qed.

Lemma run_star_spec cl s m rest :
  (m, rest) ∈ run_star cl s
  ↔ s = m ++ rest ∧ Forall (λ x, cmatch cl x = true) m.
Proof.
  revert m. induction s as [|x s IH]; intros m; simpl.
  - rewrite list_elem_of_singleton. split.
    + intros [= -> ->]. by split.
    + intros [Heq _]. symmetry in Heq.
      apply app_eq_nil in Heq as [-> ->]. done.
  - destruct (cmatch cl x) eqn:Hx.
    + rewrite elem_of_app, list_elem_of_fmap, list_elem_of_singleton. split.
      * intros [([m' r'] & [= -> ->] & Hin)|[= -> ->]].
        -- apply IH in Hin as [-> Hall]. split; [done|]. by constructor.
        -- by split.
      * intros [Heq Hall]. destruct m as [|y m]; simpl in Heq.
        -- right. by rewrite Heq.
        -- injection Heq as <- ->. left. exists (m, rest).
           split; [done|]. apply IH. split; [done|].
           by apply Forall_inv_tail in Hall.
    + rewrite list_elem_of_singleton. split.
      * intros [= -> ->]. by split.
      * intros [Heq Hall]. destruct m as [|y m]; simpl in Heq.
        -- by rewrite Heq.
        -- injection Heq as <- ->. apply Forall_inv in Hall. congruence.
Qed.

Lemma run_plus_spec cl s m rest :
  (m, rest) ∈ run_plus cl s
  ↔ s = m ++ rest ∧ m ≠ [] ∧ Forall (λ x, cmatch cl x = true) m.
Proof.
  unfold run_plus. destruct s as [|x s].
  - split; [by intros ?%elem_of_nil|].
    intros (Heq & Hne & _). symmetry in Heq.
    by apply app_eq_nil in Heq as [-> _].
  - destruct (cmatch cl x) eqn:Hx.
    + rewrite list_elem_of_fmap. split.
      * intros ([m' r'] & [= -> ->] & [-> Hall]%run_star_spec).
        repeat split; [done|]. by constructor.
      * intros (Heq & Hne & Hall). destruct m as [|y m]; [done|].
        injection Heq as <- ->. exists (m, rest). split; [done|].
        apply run_star_spec. split; [done|].
        by apply Forall_inv_tail in Hall.
    + split; [by intros ?%elem_of_nil|].
      intros (Heq & Hne & Hall). destruct m as [|y m]; [done|].
      injection Heq as <- ->. apply Forall_inv in Hall. congruence.
Qed.

(** [run] lists the matches, all of them and nothing else. *)
Lemma run_spec r pos s c m rest c' :
  (m, rest, c') ∈ run r pos s c ↔ s = m ++ rest ∧ matches r pos m rest c c'.
Proof.
  revert pos s c m rest c'.
  induction r as [l|cl|n r IH|r1 IH1 r2 IH2| |]; intros pos s c m rest c'; simpl.
  - destruct (HasPrefix s l) eqn:Hp.
    + apply HasPrefix_inv in Hp as [s' ->].
      rewrite drop_app_length, list_elem_of_singleton. split.
      * by intros [= -> -> ->].
      * intros [Heq [-> ->]]. by apply app_inv_head in Heq as ->.
    + split; [by intros ?%elem_of_nil|].
      intros [-> [-> ->]]. by rewrite HasPrefix_app in Hp.
  - rewrite list_elem_of_fmap. split.
    + intros ([m' r'] & [= -> -> ->] & (-> & Hne & Hall)%run_plus_spec).
      done.
    + intros (-> & Hne & Hall & ->). exists (m, rest). split; [done|].
      by apply run_plus_spec.
  - rewrite list_elem_of_fmap. split.
    + intros ([[m' r'] c1] & [= -> -> ->] & [-> Hm]%IH). eauto.
    + intros (-> & c1 & Hm & ->). exists (m, rest, c1). split; [done|].
      by apply IH.
  - rewrite list_elem_of_bind. split.
    + intros ([[m1 s1] c1] & Hin2 & [-> Hm1]%IH1).
      apply list_elem_of_fmap in Hin2 as ([[m2 s2] c2] & [= -> -> ->] & Hin2).
      apply IH2 in Hin2 as [-> Hm2]. split; [by rewrite (assoc_L (++))|].
      by exists m1, m2, c1.
    + intros (-> & m1 & m2 & c1 & -> & Hm1 & Hm2).
      exists (m1, m2 ++ rest, c1). split.
      * apply list_elem_of_fmap. exists (m2, rest, c'). split; [done|].
        by apply IH2.
      * apply IH1. by rewrite <- (assoc_L (++)).
  - case_bool_decide as Hpos.
    + rewrite list_elem_of_singleton. split.
      * by intros [= -> -> ->].
      * by intros [-> (-> & _ & ->)].
    + split; [by intros ?%elem_of_nil|]. by intros [_ (_ & ? & _)].
  - case_bool_decide as Hs.
    + rewrite list_elem_of_singleton. split.
      * by intros [= -> -> ->].
      * intros [_ (-> & -> & ->)]. by rewrite Hs.
    + split; [by intros ?%elem_of_nil|]. intros [-> (-> & -> & _)]. done.
Qed.
End matcher.

(** ** The order of the search *)

Section priority.

(** The greedy repetition tries the longer prefixes first. *)
Lemma run_star_split cl m rest :
  Forall (λ x, cmatch cl x = true) m →
  ∃ l1 l2, run_star cl (m ++ rest) = l1 ++ (m, rest) :: l2
    ∧ ∀ y, y ∈ l1 →
        ∃ u, u ≠ [] ∧ y.1 = m ++ u ∧ rest = u ++ y.2
             ∧ Forall (λ x, cmatch cl x = true) u.
Proof.
  induction 1 as [|x m Hx Hall (l1 & l2 & Heq & Hl1)]; simpl.
  - destruct rest as [|x rest]; simpl.
    + exists [], []. split; [done|]. by intros y ?%elem_of_nil.
    + destruct (cmatch cl x) eqn:Hx.
      * exists (prod_map (cons x) id <$> run_star cl rest), [].
        split; [done|].
        intros y ([m' r'] & -> & [-> Hall]%run_star_spec)%list_elem_of_fmap.
        exists (x :: m'). simpl. repeat split; [done|]. by constructor.
      * exists [], []. split; [done|]. by intros y ?%elem_of_nil.
  - rewrite Hx, Heq, fmap_app, fmap_cons. simpl.
    exists (prod_map (cons x) id <$> l1),
      ((prod_map (cons x) id <$> l2) ++ [([], x :: m ++ rest)]).
    split; [by rewrite <- (assoc_L (++))|].
    intros y ([m' r'] & -> & (u & Hu & Hm' & Hr & Hall')%Hl1)%list_elem_of_fmap.
    simpl in *. exists u. by rewrite Hm'.
Qed.

Lemma run_plus_split cl m rest :
  m ≠ [] → Forall (λ x, cmatch cl x = true) m →
  ∃ l1 l2, run_plus cl (m ++ rest) = l1 ++ (m, rest) :: l2
    ∧ ∀ y, y ∈ l1 →
        ∃ u, u ≠ [] ∧ y.1 = m ++ u ∧ rest = u ++ y.2
             ∧ Forall (λ x, cmatch cl x = true) u.
Proof.
  intros Hne Hall. destruct m as [|x m]; [done|].
  apply Forall_cons in Hall as [Hx Hall]. simpl. rewrite Hx.
  destruct (run_star_split cl m rest Hall) as (l1 & l2 & -> & Hl1).
  rewrite fmap_app, fmap_cons. simpl.
  exists (prod_map (cons x) id <$> l1), (prod_map (cons x) id <$> l2).
  split; [done|].
  intros y ([m' r'] & -> & (u & Hu & Hm' & Hr & Hall')%Hl1)%list_elem_of_fmap.
  simpl in *. exists u. by rewrite Hm'.
Qed.

(** A repetition that cannot go further has its longest match first. *)
Lemma run_plus_maximal cl m rest :
  m ≠ [] → Forall (λ x, cmatch cl x = true) m → stops cl rest →
  ∃ l2, run_plus cl (m ++ rest) = (m, rest) :: l2.
Proof.
  intros Hne Hall Hstop.
  destruct (run_plus_split cl m rest Hne Hall) as (l1 & l2 & -> & Hl1).
  destruct l1 as [|y l1]; [by exists l2|].
  destruct (Hl1 y) as (u & Hu & _ & -> & Hall'); [by left|].
  destruct u as [|x u]; [done|]. simpl in Hstop.
  apply Forall_inv in Hall'. congruence.
Qed.

Lemma bind_skip {A B} (f : A → list B) l1 x l2 :
  (∀ y, y ∈ l1 → f y = []) →
  (l1 ++ x :: l2) ≫= f = f x ++ (l2 ≫= f).
Proof.
  intros Hl1. rewrite bind_app, bind_cons.
  assert (l1 ≫= f = []) as ->; [|done].
  induction l1 as [|y l1 IH]; [done|].
  rewrite bind_cons, (Hl1 y) by (by left). simpl.
  apply IH. intros z Hz. apply Hl1. by right.
Qed.

(** The first match of a sequence: the first match of the first part
    behind which the second part matches, then the first match of the
    second part. *)
Lemma first_seq r1 r2 pos s c l1 m1 s1 c1 l2 m2 s2 c2 :
  run r1 pos s c = l1 ++ (m1, s1, c1) :: l2 →
  (∀ y, y ∈ l1 → run r2 (pos + length y.1.1) y.1.2 y.2 = []) →
  first_match r2 (pos + length m1) s1 c1 = Some (m2, s2, c2) →
  first_match (r1 ⋅ r2) pos s c = Some (m1 ++ m2, s2, c2).
Proof.
  intros Hrun Hl1 Hx. unfold first_match in *. simpl. rewrite Hrun.
  rewrite bind_skip.
  - destruct (run r2 (pos + length m1) s1 c1) as [|x' l]; [done|].
    simpl in Hx. by injection Hx as ->.
  - intros [[my sy] cy] Hy. pose proof (Hl1 _ Hy) as Hnil.
    simpl in *. by rewrite Hnil.
Qed.

Lemma first_seq_head r1 r2 pos s c m1 s1 c1 l2 m2 s2 c2 :
  run r1 pos s c = (m1, s1, c1) :: l2 →
  first_match r2 (pos + length m1) s1 c1 = Some (m2, s2, c2) →
  first_match (r1 ⋅ r2) pos s c = Some (m1 ++ m2, s2, c2).
Proof.
  intros Hrun Hx.
  apply (first_seq r1 r2 pos s c [] m1 s1 c1 l2); [done| |done].
  by intros y ?%elem_of_nil.
Qed.

(** The steps of a pattern, each followed by the rest [r]. *)
Lemma first_lit l r pos s c m2 s2 c2 :
  first_match r (pos + length l) s c = Some (m2, s2, c2) →
  first_match (RLit l ⋅ r) pos (l ++ s) c = Some (l ++ m2, s2, c2).
Proof. apply first_seq_head with []. apply run_lit_app. Qed.

Lemma first_plus cl r pos w s c m2 s2 c2 :
  w ≠ [] → Forall (λ y, cmatch cl y = true) w → stops cl s →
  first_match r (pos + length w) s c = Some (m2, s2, c2) →
  first_match (RPlus cl ⋅ r) pos (w ++ s) c = Some (w ++ m2, s2, c2).
Proof.
  intros Hne Hall Hstop.
  destruct (run_plus_maximal cl w s Hne Hall Hstop) as [l2 Hl2].
  apply first_seq_head with ((λ '(m, s'), (m, s', c)) <$> l2).
  simpl. by rewrite Hl2.
Qed.

Lemma first_group_plus n cl r pos w s c m2 s2 c2 :
  w ≠ [] → Forall (λ y, cmatch cl y = true) w → stops cl s →
  first_match r (pos + length w) s (<[n := w]> c) = Some (m2, s2, c2) →
  first_match (RGroup n (RPlus cl) ⋅ r) pos (w ++ s) c
  = Some (w ++ m2, s2, c2).
Proof.
  intros Hne Hall Hstop.
  destruct (run_plus_maximal cl w s Hne Hall Hstop) as [l2 Hl2].
  apply first_seq_head with
    ((λ '(m, s', c0), (m, s', <[n := m]> c0))
       <$> ((λ '(m, s'), (m, s', c)) <$> l2)).
  simpl. by rewrite Hl2.
Qed.

(** A greedy group gives back bytes until the rest [r] matches: it
    stops at [w] when [r] matches behind [w] and behind no longer
    prefix. *)
Lemma first_group_backtrack n cl r pos w s c m2 s2 c2 :
  w ≠ [] → Forall (λ y, cmatch cl y = true) w →
  (∀ u s' p c0, u ≠ [] → s = u ++ s' → run r p s' c0 = []) →
  first_match r (pos + length w) s (<[n := w]> c) = Some (m2, s2, c2) →
  first_match (RGroup n (RPlus cl) ⋅ r) pos (w ++ s) c
  = Some (w ++ m2, s2, c2).
Proof.
  intros Hne Hall Hlonger.
  destruct (run_plus_split cl w s Hne Hall) as (l1 & l2 & Heq & Hl1).
  apply first_seq with
    ((λ '(m, s', c0), (m, s', <[n := m]> c0))
       <$> ((λ '(m, s'), (m, s', c)) <$> l1))
    ((λ '(m, s', c0), (m, s', <[n := m]> c0))
       <$> ((λ '(m, s'), (m, s', c)) <$> l2)).
  - simpl. by rewrite Heq, !fmap_app, !fmap_cons.
  - intros y ([[m0 s0] c0] & -> & Hy)%list_elem_of_fmap.
    apply list_elem_of_fmap in Hy as ([m' s'] & [= -> -> ->] & Hy).
    destruct (Hl1 _ Hy) as (u & Hu & _ & Hs & _). simpl in *.
    by apply (Hlonger u).
Qed.

Lemma first_lit_end l pos c :
  first_match (RLit l ⋅ REnd) pos l c = Some (l ++ [], [], c).
Proof.
  rewrite <- (app_nil_r l) at 2.
  by apply (first_lit l REnd pos [] c [] [] c).
Qed.

Lemma first_end pos c : first_match REnd pos [] c = Some ([], [], c).
Proof. done. Qed.

Lemma first_begin r s c x :
  first_match r 0 s c = Some x →
  first_match (RBegin ⋅ r) 0 s c = Some x.
Proof.
  intros Hx. destruct x as [[m2 s2] c2].
  by rewrite (first_seq_head RBegin r 0 s c [] s c [] m2 s2 c2).
Qed.

Lemma find_at_first r pos s m rest c :
  first_match r pos s (replicate (S (NumSubexp r)) []) = Some (m, rest, c) →
  find_at r pos s = Some (<[0 := m]> c).
Proof.
  unfold first_match. destruct s; simpl;
    destruct (run r pos _ _) as [|[[m' s'] c'] l]; try done;
    by intros [= -> -> ->].
Qed.

(** What [find_at] returns comes from a match at some offset. *)
Lemma find_at_Some r pos s caps :
  find_at r pos s = Some caps →
  ∃ pre s' m rest c, s = pre ++ s'
    ∧ (m, rest, c) ∈ run r (pos + length pre) s'
                       (replicate (S (NumSubexp r)) [])
    ∧ caps = <[0 := m]> c.
Proof.
  revert pos. induction s as [|x s IH]; intros pos; simpl.
  - destruct (run r pos [] _) as [|[[m s'] c] l] eqn:Hrun; [done|].
    intros [= <-]. exists [], [], m, s', c. simpl.
    rewrite Nat.add_0_r, Hrun. repeat split. by left.
  - destruct (run r pos (x :: s) _) as [|[[m s'] c] l] eqn:Hrun.
    + intros (pre & s0 & m & rest & c & -> & Hin & ->)%IH.
      exists (x :: pre), s0, m, rest, c. simpl.
      by rewrite <- Nat.add_succ_comm.
    + intros [= <-]. exists [], (x :: s), m, s', c. simpl.
      rewrite Nat.add_0_r, Hrun. repeat split. by left.
Qed.
End priority.

(** ** The header pattern *)

Section header.

Lemma digit_not_space x : is_digit x = true → is_space x = false.
Proof. by destruct x as [[] [] [] [] [] [] [] []]. Qed.

Lemma space_not_digit x : is_space x = true → is_digit x = false.
Proof. by destruct x as [[] [] [] [] [] [] [] []]. Qed.

Lemma stops_cons cl x s s' : cmatch cl x = false → stops cl ((x :: s) ++ s').
Proof. done. Qed.

Lemma stops_digits_space t s : digits t → stops CSpace (t ++ s).
Proof.
  intros [Hne Hall]. destruct t as [|x t]; [done|].
  apply Forall_inv in Hall. by apply digit_not_space.
Qed.

Lemma stops_spaces_digit w s : spaces w → stops CDigit (w ++ s).
Proof.
  intros [Hne Hall]. destruct w as [|x w]; [done|].
  apply Forall_inv in Hall. by apply space_not_digit.
Qed.

(** What the header pattern matches is a header line with the label
    [DMI], and the groups are its handle and its two numbers. *)
Lemma handleRegex_sound line caps :
  find_at handleRegex 0 line = Some caps →
  ∃ h t sz, header_line (go "DMI") h t sz line
    ∧ h ≠ [] ∧ caps = [line; h; t; sz].
Proof.
  intros (pre & s' & m & rest & c & -> & Hin & ->)%find_at_Some.
  apply run_spec in Hin as [-> Hm]. cbn [matches handleRegex] in Hm.
  destruct Hm as (m0 & m1 & c0 & -> & (-> & Hpos & ->) & Hm).
  destruct pre as [|? pre]; [|done]. clear Hpos.
  destruct Hm as (? & m2 & ? & -> & (-> & ->) & Hm).
  destruct Hm as (w1 & m3 & ? & -> & (Hw1 & Hw1' & ->) & Hm).
  destruct Hm as (h & m4 & ? & -> & (? & (Hh & Hh' & ->) & ->) & Hm).
  destruct Hm as (? & m5 & ? & -> & (-> & ->) & Hm).
  destruct Hm as (w2 & m6 & ? & -> & (Hw2 & Hw2' & ->) & Hm).
  destruct Hm as (? & m7 & ? & -> & (-> & ->) & Hm).
  destruct Hm as (w3 & m8 & ? & -> & (Hw3 & Hw3' & ->) & Hm).
  destruct Hm as (? & m9 & ? & -> & (-> & ->) & Hm).
  destruct Hm as (w4 & m10 & ? & -> & (Hw4 & Hw4' & ->) & Hm).
  destruct Hm as (t & m11 & ? & -> & (? & (Ht & Ht' & ->) & ->) & Hm).
  destruct Hm as (? & m12 & ? & -> & (-> & ->) & Hm).
  destruct Hm as (w5 & m13 & ? & -> & (Hw5 & Hw5' & ->) & Hm).
  destruct Hm as (sz & m14 & ? & -> & (? & (Hsz & Hsz' & ->) & ->) & Hm).
  destruct Hm as (w6 & m15 & ? & -> & (Hw6 & Hw6' & ->) & Hm).
  destruct Hm as (? & m16 & ? & -> & (-> & ->) & (-> & -> & ->)).
  exists h, t, sz. split; [|split; [done|]].
  - exists w1, w2, w3, w4, w5, w6. simpl. rewrite !app_nil_r.
    repeat split; done.
  - simpl. by rewrite !app_nil_r.
Qed.

Lemma commas_app s1 s2 : commas (s1 ++ s2) = commas s1 + commas s2.
Proof. unfold commas. by rewrite filter_app, length_app. Qed.

Lemma commas_spaces w : Forall (λ x, is_space x = true) w → commas w = 0.
Proof.
  unfold commas. induction 1 as [|x w Hx _ IH]; [done|].
  rewrite filter_cons. case_decide as Hc; [by subst x|done].
Qed.

Lemma commas_digits t : Forall (λ x, is_digit x = true) t → commas t = 0.
Proof.
  unfold commas. induction 1 as [|x w Hx _ IH]; [done|].
  rewrite filter_cons. case_decide as Hc; [by subst x|done].
Qed.

Lemma tail_commas pos s c y : y ∈ run tailRegex pos s c → commas s = 2.
Proof.
  destruct y as [[m rest] c'].
  intros [-> Hm]%run_spec. cbn [matches tailRegex] in Hm.
  destruct Hm as (? & m5 & ? & -> & (-> & ->) & Hm).
  destruct Hm as (w2 & m6 & ? & -> & (Hw2 & Hw2' & ->) & Hm).
  destruct Hm as (? & m7 & ? & -> & (-> & ->) & Hm).
  destruct Hm as (w3 & m8 & ? & -> & (Hw3 & Hw3' & ->) & Hm).
  destruct Hm as (? & m9 & ? & -> & (-> & ->) & Hm).
  destruct Hm as (w4 & m10 & ? & -> & (Hw4 & Hw4' & ->) & Hm).
  destruct Hm as (t & m11 & ? & -> & (? & (Ht & Ht' & ->) & ->) & Hm).
  destruct Hm as (? & m12 & ? & -> & (-> & ->) & Hm).
  destruct Hm as (w5 & m13 & ? & -> & (Hw5 & Hw5' & ->) & Hm).
  destruct Hm as (sz & m14 & ? & -> & (? & (Hsz & Hsz' & ->) & ->) & Hm).
  destruct Hm as (w6 & m15 & ? & -> & (Hw6 & Hw6' & ->) & Hm).
  destruct Hm as (? & m16 & ? & -> & (-> & ->) & (-> & -> & ->)).
  rewrite !commas_app.
  rewrite (commas_spaces w2), (commas_spaces w3), (commas_spaces w4),
    (commas_spaces w5), (commas_spaces w6), (commas_digits t),
    (commas_digits sz) by done.
  reflexivity.
Qed.

(** On a header line the pattern finds the handle, the type code and
    the size. *)
Lemma handleRegex_complete h t sz line :
  header_line (go "DMI") h t sz line →
  handle_token h → NL ∉ h →
  FindStringSubmatch handleRegex line = [line; h; t; sz].
Proof.
  intros (w1 & w2 & w3 & w4 & w5 & w6 & [Hw1 Hw1'] & [Hw2 Hw2']
          & [Hw3 Hw3'] & [Hw4 Hw4'] & [Hw5 Hw5'] & [Hw6 Hw6']
          & Ht & Hsz & ->) (x & h' & -> & Hx) Hnl.
  unfold FindStringSubmatch.
  assert (Forall (λ y, cmatch CAny y = true) (x :: h')) as Hany.
  { apply Forall_forall. intros y Hy. simpl.
    apply negb_true_iff, Ascii.eqb_neq. by intros ->. }
  pose proof Ht as [Ht1 Ht2]. pose proof Hsz as [Hsz1 Hsz2].
  erewrite find_at_first; last first.
  { unfold handleRegex. apply first_begin, first_lit.
    apply first_plus; [done|done|by apply stops_cons|].
    apply first_group_backtrack; [done|done| |].
    - intros u s' p c0 Hu Heq.
      destruct (run _ p s' c0) as [|y l] eqn:Hrun; [done|]. exfalso.
      assert (y ∈ run tailRegex p s' c0) as Hs'
        by (unfold tailRegex; rewrite Hrun; by left).
      apply tail_commas in Hs'.
      destruct u as [|z u]; [done|].
      assert (z = ","%char) as -> by (by injection Heq as <- _).
      apply (f_equal commas) in Heq.
      rewrite !commas_app, Hs' in Heq.
      rewrite (commas_spaces w2), (commas_spaces w3), (commas_spaces w4),
        (commas_spaces w5), (commas_spaces w6), (commas_digits t),
        (commas_digits sz) in Heq by done.
      unfold commas in Heq. rewrite filter_cons_True in Heq by done.
      simpl in Heq. lia.
    - apply first_lit.
      apply first_plus; [done|done|done|]. apply first_lit.
      apply first_plus; [done|done|done|]. apply first_lit.
      apply first_plus; [done|done|by apply stops_digits_space|].
      apply first_group_plus; [done|done|done|]. apply first_lit.
      apply first_plus; [done|done|by apply stops_digits_space|].
      apply first_group_plus; [done|done|by apply stops_spaces_digit|].
      apply first_plus; [done|done|done|]. apply first_lit_end. }
  simpl. rewrite ?app_nil_r. reflexivity.
Qed.
End header.

(** ** Lines and attribute lines *)

(** A piece of a split at one byte does not hold that byte. *)
Lemma split_go_no_sep x cur s line :
  x ∉ cur → line ∈ Strings.split_go [x] 0 cur s → x ∉ line.
Proof.
  revert cur. induction s as [|c s IH]; intros cur Hcur; simpl.
  - intros ->%list_elem_of_singleton. by rewrite elem_of_reverse.
  - destruct (Ascii.eqb x c) eqn:Hxc; simpl.
    + intros [->|Hin]%elem_of_cons.
      * by rewrite elem_of_reverse.
      * apply (IH []); [|done]. by intros ?%elem_of_nil.
    + apply IH. apply Ascii.eqb_neq in Hxc.
      intros [->|?]%elem_of_cons; done.
Qed.

Lemma Split_line_no_NL record line :
  line ∈ Strings.Split record (go "\n") → NL ∉ line.
Proof. apply split_go_no_sep. by intros ?%elem_of_nil. Qed.

(** A line of the scan writes at most one attribute, and which one does
    not depend on the record. *)
Lemma scan_line_rec_write e l line :
  ∃ e' l' (w : option (gostring * gostring)),
    ∀ r, scan_line_rec (e, l, r) line
         = (e', l', from_option (λ kv, <[kv.1 := kv.2]> r) r w).
Proof.
  unfold scan_line_rec, scan_line, scan_normal, lift, set_attr. simpl.
  destruct (bool_decide (e ≠ []));
    [destruct (bool_decide (0 < length (FindStringSubmatch inBlockRegex line)))|];
    simpl.
  - eexists _, _, (Some (_, _)). intros r. simpl.
    by rewrite alter_insert_eq, lookup_total_insert_eq.
  - destruct (bool_decide (0 < length (FindStringSubmatch recordRegex line)));
      [|destruct (bool_decide
                    (0 < length (FindStringSubmatch recordRegex2 line)))];
      simpl.
    + eexists _, _, (Some (_, _)). intros r. simpl.
      by rewrite alter_insert_eq, lookup_total_insert_eq.
    + eexists _, _, None. intros r. simpl. by rewrite lookup_total_insert_eq.
    + eexists _, _, None. intros r. simpl. by rewrite lookup_total_insert_eq.
  - destruct (bool_decide (0 < length (FindStringSubmatch recordRegex line)));
      [|destruct (bool_decide
                    (0 < length (FindStringSubmatch recordRegex2 line)))];
      simpl.
    + eexists _, _, (Some (_, _)). intros r. simpl.
      by rewrite alter_insert_eq, lookup_total_insert_eq.
    + eexists _, _, None. intros r. simpl. by rewrite lookup_total_insert_eq.
    + eexists _, _, None. intros r. simpl. by rewrite lookup_total_insert_eq.
Qed.

Lemma scan_lines_rec_union lines e l r1 r :
  foldl scan_line_rec (e, l, r1 ∪ r) lines
  = ((foldl scan_line_rec (e, l, r1) lines).1,
     (foldl scan_line_rec (e, l, r1) lines).2 ∪ r).
Proof.
  revert e l r1. induction lines as [|line lines IH]; intros e l r1; simpl;
    [done|].
  destruct (scan_line_rec_write e l line) as (e' & l' & w & Hw).
  rewrite !Hw. destruct w as [[k v]|]; simpl.
  - by rewrite insert_union_l, IH.
  - by rewrite IH.
Qed.

(** The scan adds the attributes of the lines to the record it starts
    from; an attribute of the lines replaces one of the same name. *)
Lemma attr_scan_union lines r : attr_scan lines r = attr_scan lines ∅ ∪ r.
Proof.
  unfold attr_scan. rewrite <- (left_id_L ∅ (∪) r) at 1.
  by rewrite scan_lines_rec_union.
Qed.

(** The entry of a block, spelled out. *)
Lemma block_entry_Some b h r :
  block_entry b = Some (h, r) →
  ∃ t sz, 3 ≤ length (Strings.Split b (go "\n"))
    ∧ header_line (go "DMI") h t sz (Strings.Split b (go "\n") !!! 0)
    ∧ r = block_attrs b
          ∪ <[DMIName := Strings.Split b (go "\n") !!! 1]>
              (<[DMISize := sz]> (<[DMIType := t]> ∅)).
Proof.
  unfold block_entry. case_bool_decide as Hlen; [done|].
  case_bool_decide as Hhd; [done|].
  unfold FindStringSubmatch in *.
  destruct (find_at handleRegex 0 _) as [caps|] eqn:Hfind; [|done].
  apply handleRegex_sound in Hfind as (h' & t & sz & Hline & Hh' & ->).
  assert (3 ≤ length (Strings.Split b (go "\n"))) as Hlen' by lia.
  cbn [default lookup_total list_lookup_total]. intros [= <- <-].
  exists t, sz. split; [exact Hlen'|]. split; [exact Hline|].
  by rewrite attr_scan_union.
Qed.

Lemma block_entry_header b h t sz :
  3 ≤ length (Strings.Split b (go "\n")) →
  header_line (go "DMI") h t sz (Strings.Split b (go "\n") !!! 0) →
  handle_token h →
  block_entry b
  = Some (h, block_attrs b
             ∪ <[DMIName := Strings.Split b (go "\n") !!! 1]>
                 (<[DMISize := sz]> (<[DMIType := t]> ∅))).
Proof.
  intros Hlen Hline Htok. unfold block_entry.
  rewrite bool_decide_eq_false_2 by lia.
  assert (NL ∉ h) as Hnl.
  { assert (NL ∉ Strings.Split b (go "\n") !!! 0) as Hnl.
    { apply (Split_line_no_NL b). apply list_elem_of_lookup. exists 0.
      apply list_lookup_lookup_total_lt. lia. }
    destruct Hline as (w1 & w2 & w3 & w4 & w5 & w6 & _ & _ & _ & _ & _ & _
                       & _ & _ & Heq).
    rewrite Heq in Hnl. intros Hin. apply Hnl.
    rewrite !elem_of_app. right. right. by left. }
  rewrite (handleRegex_complete h t sz _ Hline Htok Hnl). simpl.
  by rewrite attr_scan_union.
Qed.

(** ** The claims on the header and the reserved attributes *)

Lemma reserved_names_differ :
  DMIType ≠ DMISize ∧ DMIType ≠ DMIName ∧ DMISize ≠ DMIName.
Proof. repeat split; discriminate. Qed.

Lemma seed_lookup name sz t :
  let seed : gmap gostring gostring :=
    <[DMIName := name]> (<[DMISize := sz]> (<[DMIType := t]> ∅)) in
  seed !! DMIType = Some t ∧ seed !! DMISize = Some sz
  ∧ seed !! DMIName = Some name.
Proof.
  destruct reserved_names_differ as (H1 & H2 & H3). simpl.
  split; [|split].
  - rewrite !lookup_insert_ne by done. by rewrite lookup_insert_eq.
  - rewrite lookup_insert_ne by done. by rewrite lookup_insert_eq.
  - by rewrite lookup_insert_eq.
Qed.

(** The header lines of the example blocks. *)
Lemma first_report_header :
  header_line (go "DMI") (go "0x0001") (go "1") (go "27")
    (Strings.Split first_report (go "\n") !!! 0).
Proof.
  exists (go " "), (go " "), (go " "), (go " "), (go " "), (go " ").
  unfold spaces, digits.
  repeat split; try discriminate; try (repeat constructor).
Qed.

Lemma second_block_header :
  header_line (go "DMI") (go "0x0001") (go "2") (go "15")
    (Strings.Split second_block (go "\n") !!! 0).
Proof.
  exists (go " "), (go " "), (go " "), (go " "), (go " "), (go " ").
  unfold spaces, digits.
  repeat split; try discriminate; try (repeat constructor).
Qed.

Lemma token_0x0001 : handle_token (go "0x0001").
Proof. exists "0"%char, (go "x0001"). split; reflexivity. Qed.

(** The record of a report of one block. *)
Lemma first_report_record :
  Data (ParseDmidecode first_report New).2 !! go "0x0001"
  = Some (block_attrs first_report
            ∪ <[DMIName := Strings.Split first_report (go "\n") !!! 1]>
                (<[DMISize := go "27"]> (<[DMIType := go "1"]> ∅))).
Proof.
  rewrite ParseDmidecode_Data.
  assert (Strings.Split first_report (go "\n\n") = [] ++ first_report :: [])
    as -> by (vm_compute; reflexivity).
  apply add_entries_last.
  - apply block_entry_header.
    + vm_compute. lia.
    + exact first_report_header.
    + exact token_0x0001.
  - intros b' r' Hin. by apply elem_of_nil in Hin.
Qed.

Lemma union_seed_lookup (attrs seed : gmap gostring gostring) k x :
  seed !! k = Some x →
  (attrs ∪ seed) !! k = Some (default x (attrs !! k)).
Proof.
  intros Hk. destruct (attrs !! k) as [y|] eqn:Hy; simpl.
  - by apply lookup_union_Some_l.
  - by rewrite lookup_union_r.
Qed.

(** C8, as the code has it: every record of the table of a successful
    parse into an empty table is the record of a block of the input, of
    three lines or more and with a header line for the handle of the
    record, and holds the three reserved names.  Its type code is what
    the attribute lines of that block store under [DMIType] when they
    store a value there, and the first number of the header, a string
    of digits that is not empty, when they store none; so for the size
    with [DMISize] and the second number, and for the name with
    [DMIName] and the second line of the block. *)
Theorem reserved_attributes text d d' h r :
  Data d = ∅ →
  ParseDmidecode text d = (None, d') →
  Data d' !! h = Some r →
  ∃ b t sz, b ∈ Strings.Split text (go "\n\n")
    ∧ 3 ≤ length (Strings.Split b (go "\n"))
    ∧ header_line (go "DMI") h t sz (Strings.Split b (go "\n") !!! 0)
    ∧ Data (parse_record New b) !! h = Some r
    ∧ is_Some (r !! DMIType) ∧ is_Some (r !! DMISize)
    ∧ is_Some (r !! DMIName)
    ∧ digits t ∧ digits sz
    ∧ r !! DMIType = Some (default t (block_attrs b !! DMIType))
    ∧ r !! DMISize = Some (default sz (block_attrs b !! DMISize))
    ∧ r !! DMIName
      = Some (default (Strings.Split b (go "\n") !!! 1)
                (block_attrs b !! DMIName)).
Proof.
  intros Hd Hparse Hr.
  assert (Data d' = Data (ParseDmidecode text d).2) as Hd'
    by (by rewrite Hparse).
  rewrite Hd', ParseDmidecode_Data, Hd in Hr.
  apply add_entries_origin in Hr as [Hr|(b & Hin & Hb)];
    [by rewrite lookup_empty in Hr|].
  pose proof Hb as Hentry.
  apply block_entry_Some in Hb as (t & sz & Hlen & Hline & ->).
  exists b, t, sz. split; [done|]. split; [done|]. split; [done|].
  split; [by apply parse_record_New_lookup|].
  pose proof Hline as (w1 & w2 & w3 & w4 & w5 & w6 & _ & _ & _ & _ & _ & _
                       & Ht & Hsz & _).
  destruct (seed_lookup (Strings.Split b (go "\n") !!! 1) sz t)
    as (Hlt & Hlsz & Hlname).
  rewrite (union_seed_lookup _ _ _ _ Hlt), (union_seed_lookup _ _ _ _ Hlsz),
    (union_seed_lookup _ _ _ _ Hlname).
  repeat (split; [eauto|]). done.
Qed.

Lemma reserved_attributes_witness :
  ∃ r, Data (ParseDmidecode first_report New).2 !! go "0x0001" = Some r
    ∧ is_Some (r !! DMIType) ∧ is_Some (r !! DMISize)
    ∧ is_Some (r !! DMIName).
Proof.
  assert (ParseDmidecode first_report New
          = (None, (ParseDmidecode first_report New).2)) as Hparse.
  { rewrite (surjective_pairing (ParseDmidecode first_report New)) at 1.
    f_equal; vm_compute; reflexivity. }
  eexists. split; [exact first_report_record|].
  destruct (reserved_attributes first_report New _ (go "0x0001") _
              eq_refl Hparse first_report_record)
    as (b & t & sz & _ & _ & _ & _ & Htype & Hsize & Hname & _).
  split; [exact Htype|]. split; [exact Hsize|exact Hname].
Defined.

(** C8 fails for a block with an attribute line named [DMIType]: the
    parse succeeds and the type code of the record is the value of that
    line, which is no string of digits. *)
Lemma reserved_type_overwritten :
  (ParseDmidecode shadowed_type New).1 = None
  ∧ Data (ParseDmidecode shadowed_type New).2 !! go "0x0001"
      ≫= (.!! DMIType)
    = Some (go "none")
  ∧ ¬ digits (go "none").
Proof.
  split; [vm_compute; reflexivity|]. split; [vm_compute; reflexivity|].
  intros [_ Hall]. apply Forall_inv in Hall. discriminate.
Qed.

(** A line that opens an array stores nothing by itself: with no array
    line behind it, the type code stays the number of the header. *)
Example opened_type_keeps_number :
  block_attrs opened_type !! DMIType = None
  ∧ Data (ParseDmidecode opened_type New).2 !! go "0x0001" ≫= (.!! DMIType)
    = Some (go "1").
Proof. split; vm_compute; reflexivity. Qed.

(** ** Split and the loop of genSplit *)

Lemma split_go_skip sep n cur s :
  Strings.split_go sep n cur s = Strings.split_go sep 0 cur (drop n s).
Proof.
  revert n. induction s as [|c s IH]; intros n.
  - by rewrite drop_nil.
  - destruct n as [|n]; [done|]. simpl. apply IH.
Qed.

Lemma split_go_Index sep cur s :
  sep ≠ [] →
  Strings.split_go sep 0 cur s
  = match Strings.Index s sep with
    | None => [reverse cur ++ s]
    | Some m =>
        (reverse cur ++ take m s)
        :: Strings.split_go sep 0 [] (drop (m + length sep) s)
    end.
Proof.
  intros Hsep. revert cur. induction s as [|c s IH]; intros cur.
  - destruct sep as [|x sep]; [done|]. simpl. by rewrite app_nil_r.
  - cbn [Strings.split_go Strings.Index].
    destruct (Strings.HasPrefix (c :: s) sep) eqn:Hp.
    + rewrite split_go_skip, take_0, app_nil_r.
      destruct sep as [|x sep]; [done|]. simpl. by rewrite Nat.sub_0_r.
    + rewrite IH. destruct (Strings.Index s sep) as [m|]; simpl.
      * by rewrite reverse_cons, <- (assoc_L (++)).
      * by rewrite reverse_cons, <- (assoc_L (++)).
Qed.

(** [Split] cuts at the first instance of the separator and goes on
    behind it, as the loop of [genSplit] does. *)
Lemma Split_Index s sep :
  sep ≠ [] →
  Strings.Split s sep
  = match Strings.Index s sep with
    | None => [s]
    | Some m => take m s :: Strings.Split (drop (m + length sep) s) sep
    end.
Proof. intros Hsep. unfold Strings.Split. by rewrite split_go_Index. Qed.

(** ** The array lines *)

(** What the pattern of an array line matches: two tabs and a non-empty
    fragment. *)
Lemma inBlockRegex_sound line caps :
  find_at inBlockRegex 0 line = Some caps →
  ∃ f, f ≠ [] ∧ line = go "\t\t" ++ f ∧ caps = [line; f].
Proof.
  intros (pre & s' & m & rest & c & -> & Hin & ->)%find_at_Some.
  apply run_spec in Hin as [-> Hm]. cbn [matches inBlockRegex] in Hm.
  destruct Hm as (m0 & m1 & c0 & -> & (-> & Hpos & ->) & Hm).
  destruct pre as [|? pre]; [|done]. clear Hpos.
  destruct Hm as (? & m2 & ? & -> & (-> & ->) & Hm).
  destruct Hm as (f & m3 & ? & -> & (? & (Hf & Hf' & ->) & ->) & Hm).
  destruct Hm as (-> & -> & ->).
  exists f. simpl. by rewrite !app_nil_r.
Qed.

Lemma inBlockRegex_complete f :
  f ≠ [] → NL ∉ f →
  FindStringSubmatch inBlockRegex (go "\t\t" ++ f) = [go "\t\t" ++ f; f].
Proof.
  intros Hf Hnl. unfold FindStringSubmatch.
  assert (Forall (λ y, cmatch CAny y = true) f) as Hany.
  { apply Forall_forall. intros y Hy. simpl.
    apply negb_true_iff, Ascii.eqb_neq. by intros ->. }
  erewrite find_at_first; last first.
  { unfold inBlockRegex. apply first_begin, first_lit.
    rewrite <- (app_nil_r f) at 1.
    apply first_group_plus; [done|done|done|]. apply first_end. }
  simpl. by rewrite !app_nil_r.
Qed.

Lemma set_attr_twice h k v1 v2 d :
  set_attr h k v2 (set_attr h k v1 d) = set_attr h k v2 d.
Proof.
  unfold set_attr. simpl. f_equal. rewrite alter_alter_eq.
  apply alter_ext. intros r _. simpl. by rewrite insert_insert_eq.
Qed.

(** One array line appends its fragment to the accumulator, whatever
    the accumulator holds, and stores the result. *)
Lemma scan_line_array h key acc d f :
  key ≠ [] → f ≠ [] → NL ∉ f →
  scan_line h (mkScan key acc d) (go "\t\t" ++ f)
  = let v := if decide (acc = []) then f else acc ++ go "\t\t" ++ f in
    mkScan key v (set_attr h key v d).
Proof.
  intros Hkey Hf Hnl. unfold scan_line. cbn [inBlockElement inBlockList dmi].
  rewrite bool_decide_eq_true_2 by done.
  rewrite inBlockRegex_complete by done.
  cbn [length]. rewrite bool_decide_eq_true_2 by lia.
  cbn [lookup_total list_lookup_total].
  destruct acc as [|a acc]; [done|].
  rewrite bool_decide_eq_false_2 by (simpl; lia). done.
Qed.

(** The lines of an array: the value stored is the accumulator found
    when the array opens, then the fragments, joined by two tabs.  It is
    the fragments alone only when that accumulator is empty. *)
Lemma scan_lines_array h key acc d frags :
  key ≠ [] → frags ≠ [] →
  Forall (λ f, f ≠ [] ∧ NL ∉ f) frags →
  foldl (scan_line h) (mkScan key acc d) ((go "\t\t" ++.) <$> frags)
  = let v := if decide (acc = [])
             then Strings.Join frags (go "\t\t")
             else acc ++ go "\t\t" ++ Strings.Join frags (go "\t\t") in
    mkScan key v (set_attr h key v d).
Proof.
  intros Hkey Hne Hall. revert acc d.
  induction Hall as [|f frags [Hf Hnl] Hall IH]; intros acc d; [done|].
  rewrite fmap_cons. cbn [foldl]. rewrite scan_line_array by done.
  destruct frags as [|f' frags].
  { simpl. by destruct (decide (acc = [])). }
  cbn zeta. rewrite IH by done. cbn zeta.
  rewrite set_attr_twice.
  destruct (decide (acc = [])) as [->|Hacc].
  - destruct f as [|x f]; [done|]. rewrite decide_False by done. done.
  - rewrite decide_False by (by destruct acc).
    cbn [Strings.Join]. by rewrite <- !(assoc_L (++)).
Qed.

(** The example of the specification parses as it says. *)
Example system_report_parsed :
  (ParseDmidecode system_report New).1 = None
  ∧ map_to_list (Data (ParseDmidecode system_report New).2
                   !!! go "0x0001")
    ≡ₚ [(DMIType, go "1"); (DMISize, go "27");
        (DMIName, go "System Information");
        (go "Manufacturer", go "Acme"); (go "Version", go "v1\t\tv2")]
  ∧ dom (Data (ParseDmidecode system_report New).2) = {[ go "0x0001" ]}.
Proof.
  split; [vm_compute; reflexivity|]. split.
  - match goal with
    | |- ?l ≡ₚ _ => let l' := eval vm_compute in l in change l with l'
    end.
    apply (bool_decide_unpack _). vm_compute. exact I.
  - apply (bool_decide_unpack _). vm_compute. exact I.
Qed.

(** * Further properties *)

(** ** Split and Join *)

Lemma split_go_nonempty sep n cur s : Strings.split_go sep n cur s ≠ [].
Proof.
  revert n cur. induction s as [|c s IH]; intros n cur; [done|].
  destruct n as [|n]; simpl; [|apply IH].
  destruct (Strings.HasPrefix (c :: s) sep); [done|apply IH].
Qed.

Lemma Join_cons e elems sep :
  elems ≠ [] →
  Strings.Join (e :: elems) sep = e ++ sep ++ Strings.Join elems sep.
Proof. by destruct elems. Qed.

Lemma split_go_Join sep n cur s :
  sep ≠ [] →
  Strings.Join (Strings.split_go sep n cur s) sep = reverse cur ++ drop n s.
Proof.
  intros Hsep. revert n cur. induction s as [|c s IH]; intros n cur.
  - simpl. by rewrite drop_nil, app_nil_r.
  - destruct n as [|n]; [|apply IH]. cbn [Strings.split_go].
    destruct (Strings.HasPrefix (c :: s) sep) eqn:Hp.
    + rewrite Join_cons by apply split_go_nonempty. rewrite IH.
      apply HasPrefix_inv in Hp as [rest Hrest].
      destruct sep as [|x sep]; [done|]. injection Hrest as -> ->.
      simpl. by rewrite Nat.sub_0_r, drop_app_length.
    + rewrite IH. by rewrite reverse_cons, <- (assoc_L (++)).
Qed.

(** X1: splitting at a separator and joining the pieces with it gives
    the string back, and a split has at least one piece. *)
Theorem Split_Join s sep :
  sep ≠ [] →
  Strings.Join (Strings.Split s sep) sep = s
  ∧ Strings.Split s sep ≠ [].
Proof.
  intros Hsep. split; [|apply split_go_nonempty].
  unfold Strings.Split. by rewrite split_go_Join.
Qed.

Lemma Split_Join_witness :
  Strings.Join (Strings.Split two_arrays (go "\n")) (go "\n") = two_arrays.
Proof. apply (Split_Join two_arrays (go "\n")). discriminate. Defined.

Lemma HasPrefix_take s sep k :
  Strings.HasPrefix (take k s) sep = true → Strings.HasPrefix s sep = true.
Proof.
  intros [rest Hrest]%HasPrefix_inv.
  rewrite <- (take_drop k s), Hrest, <- (assoc_L (++)).
  apply HasPrefix_app.
Qed.

Lemma Index_nil sep : sep ≠ [] → Strings.Index [] sep = None.
Proof. by destruct sep. Qed.

Lemma Index_take sep s m :
  sep ≠ [] → Strings.Index s sep = Some m →
  Strings.Index (take m s) sep = None.
Proof.
  intros Hsep. revert m. induction s as [|c s IH]; intros m.
  - by rewrite Index_nil.
  - cbn [Strings.Index].
    destruct (Strings.HasPrefix (c :: s) sep) eqn:Hp.
    + intros [= <-]. by apply Index_nil.
    + destruct (Strings.Index s sep) as [m'|] eqn:Hm; [|done].
      intros [= <-]. cbn [take Strings.Index].
      destruct (Strings.HasPrefix (c :: take m' s) sep) eqn:Hp'.
      * apply (HasPrefix_take (c :: s) sep (S m')) in Hp'. congruence.
      * by rewrite (IH m').
Qed.

Lemma Index_lt sep s m :
  sep ≠ [] → Strings.Index s sep = Some m → m + length sep ≤ length s.
Proof.
  intros Hsep. revert m. induction s as [|c s IH]; intros m.
  - by rewrite Index_nil.
  - cbn [Strings.Index].
    destruct (Strings.HasPrefix (c :: s) sep) eqn:Hp.
    + intros [= <-]. apply HasPrefix_inv in Hp as [rest Hrest].
      rewrite Hrest, length_app. lia.
    + destruct (Strings.Index s sep) as [m'|] eqn:Hm; [|done].
      intros [= <-]. specialize (IH m' eq_refl). simpl. lia.
Qed.

(** X2: no piece of a split holds the separator, so no block of a
    report holds a blank line and no line of a block a line break. *)
Theorem Split_pieces s sep piece :
  sep ≠ [] → piece ∈ Strings.Split s sep →
  Strings.Index piece sep = None.
Proof.
  intros Hsep. remember (length s) as n eqn:Hn. revert s Hn.
  induction n as [n IH] using lt_wf_ind. intros s -> Hin.
  rewrite Split_Index in Hin by done.
  destruct (Strings.Index s sep) as [m|] eqn:Hm.
  - apply elem_of_cons in Hin as [->|Hin]; [by apply Index_take|].
    apply (IH (length (drop (m + length sep) s))) in Hin; [done| |done].
    apply Index_lt in Hm; [|done]. rewrite length_drop.
    destruct sep; [done|]. simpl in *. lia.
  - by apply list_elem_of_singleton in Hin as ->.
Qed.

Lemma Split_pieces_witness :
  Strings.Index (go "Processor Information") (go "\n") = None.
Proof.
  apply (Split_pieces two_arrays (go "\n")); [discriminate|].
  vm_compute. right. left.
Defined.

(** ** The patterns of the lines *)

Lemma any_no_NL s : Forall (λ x, cmatch CAny x = true) s ↔ NL ∉ s.
Proof.
  rewrite Forall_forall. split.
  - intros Hall Hin. specialize (Hall _ Hin). by vm_compute in Hall.
  - intros Hnl x Hx. simpl. apply negb_true_iff, Ascii.eqb_neq.
    by intros ->.
Qed.

Lemma find_at_run r pos s y :
  y ∈ run r pos s (replicate (S (NumSubexp r)) []) →
  is_Some (find_at r pos s).
Proof.
  destruct s; simpl;
    destruct (run r pos _ _) as [|[[m s'] c] l]; eauto;
    by intros ?%elem_of_nil.
Qed.

Lemma find_at_skip r pos pre s :
  (∀ pre1 x pre2 c, pre = pre1 ++ x :: pre2 →
     run r (pos + length pre1) (x :: pre2 ++ s) c = []) →
  find_at r pos (pre ++ s) = find_at r (pos + length pre) s.
Proof.
  revert pos. induction pre as [|x pre IH]; intros pos Hskip.
  - simpl. by rewrite Nat.add_0_r.
  - cbn [app find_at]. rewrite <- (Nat.add_0_r pos) at 1.
    rewrite (Hskip [] x pre) by done. rewrite IH.
    + f_equal. simpl. lia.
    + intros pre1 y pre2 c ->.
      replace (S pos + length pre1) with (pos + length (x :: pre1))
        by (simpl; lia).
      by apply (Hskip (x :: pre1)).
Qed.

Lemma run_lit_mismatch l r pos s c :
  Strings.HasPrefix s l = false → run (RLit l ⋅ r) pos s c = [].
Proof. intros Hp. simpl. by rewrite Hp. Qed.

Lemma HasPrefix_byte x y s : x ≠ y → Strings.HasPrefix (y :: s) [x] = false.
Proof. intros Hxy. simpl. by apply andb_false_iff; left; apply Ascii.eqb_neq. Qed.

(** A pattern that starts with a tab matches from the first tab on. *)
Lemma find_at_first_tab r pre s :
  TAB ∉ pre →
  find_at (RLit (go "\t") ⋅ r) 0 (pre ++ s)
  = find_at (RLit (go "\t") ⋅ r) (length pre) s.
Proof.
  intros Hpre. rewrite find_at_skip; [done|].
  intros pre1 x pre2 c ->. apply run_lit_mismatch, HasPrefix_byte.
  intros <-. apply Hpre. rewrite elem_of_app. right. by left.
Qed.

Lemma spaces_no_colon w : Forall (λ x, is_space x = true) w → ":"%char ∉ w.
Proof.
  rewrite Forall_forall. intros Hall Hin. specialize (Hall _ Hin).
  by vm_compute in Hall.
Qed.

Lemma app_eq_skip {A} (l1 l2 X Y : list A) c :
  c ∉ l1 → l1 ++ X = l2 ++ c :: Y → ∃ z, l2 = l1 ++ z ∧ X = z ++ c :: Y.
Proof.
  revert l2. induction l1 as [|a l1 IH]; intros l2 Hc Heq.
  - by exists l2.
  - destruct l2 as [|b l2]; simpl in Heq.
    + injection Heq as -> _. destruct Hc. by left.
    + injection Heq as -> Heq. destruct (IH l2) as (z & -> & ->); [|done|].
      * intros ?. apply Hc. by right.
      * by exists z.
Qed.

Lemma app_last_elem {A} (L A0 B : list A) c :
  B ≠ [] → L ++ [c] = A0 ++ c :: B → c ∈ L.
Proof.
  intros HB Heq. destruct (exists_last HB) as (B' & b & ->).
  change (A0 ++ c :: B' ++ [b]) with (A0 ++ (c :: B') ++ [b]) in Heq.
  rewrite (assoc_L (++)) in Heq. apply app_inj_tail in Heq as [-> _].
  rewrite elem_of_app. right. by left.
Qed.

(** What the [key: value] pattern matches. *)
Lemma recordRegex_sound line caps :
  find_at recordRegex 0 line = Some caps →
  ∃ pre key ws value,
    line = pre ++ go "\t" ++ key ++ go ":" ++ ws ++ value
    ∧ key ≠ [] ∧ (NL ∉ key) ∧ spaces ws ∧ value ≠ [] ∧ (NL ∉ value)
    ∧ caps = [go "\t" ++ key ++ go ":" ++ ws ++ value; key; value].
Proof.
  intros (pre & s' & m & rest & c & -> & Hin & ->)%find_at_Some.
  apply run_spec in Hin as [-> Hm]. cbn [matches recordRegex] in Hm.
  destruct Hm as (? & m2 & ? & -> & (-> & ->) & Hm).
  destruct Hm as (key & m3 & ? & -> & (? & (Hk & Hk' & ->) & ->) & Hm).
  destruct Hm as (? & m4 & ? & -> & (-> & ->) & Hm).
  destruct Hm as (ws & m5 & ? & -> & (Hw & Hw' & ->) & Hm).
  destruct Hm as (value & m6 & ? & -> & (? & (Hv & Hv' & ->) & ->) & Hm).
  destruct Hm as (-> & -> & ->).
  exists pre, key, ws, value. rewrite !app_nil_r.
  apply any_no_NL in Hk', Hv'. done.
Qed.

(** What the array-open pattern matches. *)
Lemma recordRegex2_sound line caps :
  find_at recordRegex2 0 line = Some caps →
  ∃ pre key,
    line = pre ++ go "\t" ++ key ++ go ":"
    ∧ key ≠ [] ∧ (NL ∉ key)
    ∧ caps = [go "\t" ++ key ++ go ":"; key].
Proof.
  intros (pre & s' & m & rest & c & -> & Hin & ->)%find_at_Some.
  apply run_spec in Hin as [-> Hm]. cbn [matches recordRegex2] in Hm.
  destruct Hm as (? & m2 & ? & -> & (-> & ->) & Hm).
  destruct Hm as (key & m3 & ? & -> & (? & (Hk & Hk' & ->) & ->) & Hm).
  destruct Hm as (? & m4 & ? & -> & (-> & ->) & Hm).
  destruct Hm as (-> & -> & ->).
  exists pre, key. rewrite !app_nil_r.
  apply any_no_NL in Hk'. done.
Qed.

(** What the array-line pattern matches. *)
Lemma inBlockRegex_sound_NL line caps :
  find_at inBlockRegex 0 line = Some caps →
  ∃ f, f ≠ [] ∧ (NL ∉ f) ∧ line = go "\t\t" ++ f ∧ caps = [line; f].
Proof.
  intros (pre & s' & m & rest & c & -> & Hin & ->)%find_at_Some.
  apply run_spec in Hin as [-> Hm]. cbn [matches inBlockRegex] in Hm.
  destruct Hm as (m0 & m1 & c0 & -> & (-> & Hpos & ->) & Hm).
  destruct pre as [|? pre]; [|done]. clear Hpos.
  destruct Hm as (? & m2 & ? & -> & (-> & ->) & Hm).
  destruct Hm as (f & m3 & ? & -> & (? & (Hf & Hf' & ->) & ->) & Hm).
  destruct Hm as (-> & -> & ->).
  exists f. apply any_no_NL in Hf'. simpl. by rewrite !app_nil_r.
Qed.

(** X3: the array-line pattern matches exactly the lines made of two
    tabs and a non-empty fragment without line break, and its group is
    the fragment. *)
Theorem inBlockRegex_line line :
  (FindStringSubmatch inBlockRegex line ≠ []
   ↔ ∃ f, f ≠ [] ∧ (NL ∉ f) ∧ line = go "\t\t" ++ f)
  ∧ (∀ f, f ≠ [] → NL ∉ f → line = go "\t\t" ++ f →
     FindStringSubmatch inBlockRegex line = [line; f]).
Proof.
  split; [split|].
  - unfold FindStringSubmatch.
    destruct (find_at inBlockRegex 0 line) as [caps|] eqn:Hfind; [|done].
    apply inBlockRegex_sound_NL in Hfind as (f & Hf & Hnl & -> & _).
    intros _. by exists f.
  - intros (f & Hf & Hnl & ->). by rewrite inBlockRegex_complete.
  - intros f Hf Hnl ->. by apply inBlockRegex_complete.
Qed.

(** On a line that has, behind its first tab, a key, a colon, white
    space and a value without colon that starts with no white space,
    the [key: value] pattern gives that key and that value.  What stands
    before the first tab is skipped, and the key may hold colons. *)
Lemma recordRegex_complete pre key ws value :
  TAB ∉ pre → key ≠ [] → NL ∉ key → spaces ws →
  stops CSpace value → value ≠ [] → NL ∉ value → ":"%char ∉ value →
  FindStringSubmatch recordRegex
    (pre ++ go "\t" ++ key ++ go ":" ++ ws ++ value)
  = [go "\t" ++ key ++ go ":" ++ ws ++ value; key; value].
Proof.
  intros Hpre Hkey Hknl [Hws Hws'] Hstop Hval Hvnl Hcolon.
  unfold FindStringSubmatch, recordRegex.
  rewrite find_at_first_tab by done.
  apply any_no_NL in Hknl, Hvnl.
  erewrite find_at_first; last first.
  { apply first_lit. apply first_group_backtrack; [done|done| |].
    - intros u s' p c0 Hu Heq. apply run_lit_mismatch.
      destruct u as [|x u]; [done|]. injection Heq as _ Heq.
      destruct s' as [|y s']; [done|]. apply HasPrefix_byte. intros <-.
      assert (":"%char ∈ ws ++ value) as [Hin|Hin]%elem_of_app.
      { rewrite Heq, elem_of_app. right. by left. }
      + by apply spaces_no_colon in Hin.
      + done.
    - apply first_lit. apply first_plus; [done|done|done|].
      rewrite <- (app_nil_r value) at 1.
      apply first_group_plus; [done|done|done|]. apply first_end. }
  simpl. by rewrite !app_nil_r.
Qed.

(** What the header pattern matches, with the bytes of the handle. *)
Lemma handleRegex_sound_NL line caps :
  find_at handleRegex 0 line = Some caps →
  ∃ h t sz, header_line (go "DMI") h t sz line
    ∧ h ≠ [] ∧ (NL ∉ h) ∧ caps = [line; h; t; sz].
Proof.
  intros (pre & s' & m & rest & c & -> & Hin & ->)%find_at_Some.
  apply run_spec in Hin as [-> Hm]. cbn [matches handleRegex] in Hm.
  destruct Hm as (m0 & m1 & c0 & -> & (-> & Hpos & ->) & Hm).
  destruct pre as [|? pre]; [|done]. clear Hpos.
  destruct Hm as (? & m2 & ? & -> & (-> & ->) & Hm).
  destruct Hm as (w1 & m3 & ? & -> & (Hw1 & Hw1' & ->) & Hm).
  destruct Hm as (h & m4 & ? & -> & (? & (Hh & Hh' & ->) & ->) & Hm).
  destruct Hm as (? & m5 & ? & -> & (-> & ->) & Hm).
  destruct Hm as (w2 & m6 & ? & -> & (Hw2 & Hw2' & ->) & Hm).
  destruct Hm as (? & m7 & ? & -> & (-> & ->) & Hm).
  destruct Hm as (w3 & m8 & ? & -> & (Hw3 & Hw3' & ->) & Hm).
  destruct Hm as (? & m9 & ? & -> & (-> & ->) & Hm).
  destruct Hm as (w4 & m10 & ? & -> & (Hw4 & Hw4' & ->) & Hm).
  destruct Hm as (t & m11 & ? & -> & (? & (Ht & Ht' & ->) & ->) & Hm).
  destruct Hm as (? & m12 & ? & -> & (-> & ->) & Hm).
  destruct Hm as (w5 & m13 & ? & -> & (Hw5 & Hw5' & ->) & Hm).
  destruct Hm as (sz & m14 & ? & -> & (? & (Hsz & Hsz' & ->) & ->) & Hm).
  destruct Hm as (w6 & m15 & ? & -> & (Hw6 & Hw6' & ->) & Hm).
  destruct Hm as (? & m16 & ? & -> & (-> & ->) & (-> & -> & ->)).
  apply any_no_NL in Hh'.
  exists h, t, sz. split; [|split; [done|split; [done|]]].
  - exists w1, w2, w3, w4, w5, w6. simpl. rewrite !app_nil_r.
    repeat split; done.
  - simpl. by rewrite !app_nil_r.
Qed.

Lemma matches_seq r1 r2 pos m1 m2 rest c c1 c' :
  matches r1 pos m1 (m2 ++ rest) c c1 →
  matches r2 (pos + length m1) m2 rest c1 c' →
  matches (r1 ⋅ r2) pos (m1 ++ m2) rest c c'.
Proof. intros H1 H2. by exists m1, m2, c1. Qed.

Lemma matches_begin r m rest c c' :
  matches r 0 m rest c c' → matches (RBegin ⋅ r) 0 m rest c c'.
Proof. intros H. by exists [], m, c. Qed.

Lemma matches_lit_end l pos c : matches (RLit l ⋅ REnd) pos l [] c c.
Proof. exists l, [], c. by rewrite app_nil_r. Qed.

Lemma matches_group_plus n cl pos m rest c :
  m ≠ [] → Forall (λ x, cmatch cl x = true) m →
  matches (RGroup n (RPlus cl)) pos m rest c (<[n := m]> c).
Proof. intros Hm Hall. by exists c. Qed.

(** A header line has a match of the header pattern. *)
Lemma handleRegex_matches h t sz line :
  header_line (go "DMI") h t sz line → h ≠ [] → NL ∉ h →
  is_Some (find_at handleRegex 0 line).
Proof.
  intros (w1 & w2 & w3 & w4 & w5 & w6 & [Hw1 Hw1'] & [Hw2 Hw2']
          & [Hw3 Hw3'] & [Hw4 Hw4'] & [Hw5 Hw5'] & [Hw6 Hw6']
          & [Ht Ht'] & [Hsz Hsz'] & ->) Hh Hnl.
  apply any_no_NL in Hnl.
  eapply find_at_run. apply run_spec. split; [symmetry; apply app_nil_r|].
  unfold handleRegex. apply matches_begin.
  apply matches_seq with (c1 := replicate 4 []); [done|].
  apply matches_seq with (c1 := replicate 4 []); [done|].
  eapply matches_seq; [by apply matches_group_plus|].
  eapply matches_seq; [done|].
  eapply matches_seq; [done|].
  eapply matches_seq; [done|].
  eapply matches_seq; [done|].
  eapply matches_seq; [done|].
  eapply matches_seq; [done|].
  eapply matches_seq; [by apply matches_group_plus|].
  eapply matches_seq; [done|].
  eapply matches_seq; [done|].
  eapply matches_seq; [by apply matches_group_plus|].
  eapply matches_seq; [done|].
  apply matches_lit_end.
Qed.

(** X4: the header pattern matches exactly the header lines with the
    label [DMI]; when it matches it gives four strings, the line, a
    non-empty handle and two non-empty strings of digits. *)
Theorem handleRegex_header line :
  (FindStringSubmatch handleRegex line ≠ []
   ↔ ∃ h t sz, h ≠ [] ∧ (NL ∉ h) ∧ header_line (go "DMI") h t sz line)
  ∧ (FindStringSubmatch handleRegex line ≠ [] →
     ∃ h t sz, FindStringSubmatch handleRegex line = [line; h; t; sz]
       ∧ h ≠ [] ∧ digits t ∧ digits sz).
Proof.
  unfold FindStringSubmatch. split; [split|].
  - destruct (find_at handleRegex 0 line) as [caps|] eqn:Hfind; [|done].
    apply handleRegex_sound_NL in Hfind as (h & t & sz & Hl & Hh & Hnl & _).
    intros _. by exists h, t, sz.
  - intros (h & t & sz & Hh & Hnl & Hl).
    destruct (handleRegex_matches h t sz line Hl Hh Hnl) as [caps Hfind].
    rewrite Hfind.
    apply handleRegex_sound_NL in Hfind as (? & ? & ? & _ & _ & _ & ->).
    done.
  - destruct (find_at handleRegex 0 line) as [caps|] eqn:Hfind; [|done].
    apply handleRegex_sound_NL in Hfind as (h & t & sz & Hl & Hh & Hnl & ->).
    intros _. exists h, t, sz.
    destruct Hl as (? & ? & ? & ? & ? & ? & _ & _ & _ & _ & _ & _
                    & Ht & Hsz & _).
    done.
Qed.

(** A line that ends, behind its first tab, with a key without colon
    and a colon is an array-open line: the [key: value] pattern does not
    match it and the array-open pattern gives the key. *)
Lemma recordRegex2_complete pre key :
  TAB ∉ pre → key ≠ [] → NL ∉ key → ":"%char ∉ key →
  FindStringSubmatch recordRegex (pre ++ go "\t" ++ key ++ go ":") = []
  ∧ FindStringSubmatch recordRegex2 (pre ++ go "\t" ++ key ++ go ":")
    = [go "\t" ++ key ++ go ":"; key].
Proof.
  intros Hpre Hkey Hknl Hcolon. unfold FindStringSubmatch. split.
  - destruct (find_at recordRegex 0 _) as [caps|] eqn:Hfind; [|done].
    apply recordRegex_sound in Hfind
      as (pre' & k & ws & v & Heq & _ & _ & [Hws _] & Hv & _ & _).
    exfalso. apply app_eq_skip in Heq as (z & -> & Heq); [|done].
    assert (":"%char ∈ TAB :: key) as [?|?]%elem_of_cons; [|done|done].
    apply (app_last_elem _ (z ++ TAB :: k) (ws ++ v)).
    + by destruct ws.
    + rewrite <- (assoc_L (++)). exact Heq.
  - unfold recordRegex2. rewrite find_at_first_tab by done.
    apply any_no_NL in Hknl.
    erewrite find_at_first; last first.
    { apply first_lit. apply first_group_backtrack; [done|done| |].
      - intros u s' p c0 Hu Heq. apply run_lit_mismatch.
        destruct u as [|x u]; [done|]. injection Heq as _ Heq.
        symmetry in Heq. by apply app_eq_nil in Heq as [_ ->].
      - apply first_lit_end. }
    simpl. rewrite ?app_nil_r. reflexivity.
Qed.

(** X5: a line without tab matches none of the three patterns of the
    scan: it is dropped, and it ends an array. *)
Theorem line_without_tab h st line :
  TAB ∉ line →
  FindStringSubmatch inBlockRegex line = []
  ∧ FindStringSubmatch recordRegex line = []
  ∧ FindStringSubmatch recordRegex2 line = []
  ∧ scan_line h st line = mkScan [] (inBlockList st) (dmi st).
Proof.
  intros Htab.
  assert (FindStringSubmatch inBlockRegex line = []) as H1.
  { unfold FindStringSubmatch.
    destruct (find_at inBlockRegex 0 line) as [caps|] eqn:Hfind; [|done].
    apply inBlockRegex_sound_NL in Hfind as (f & _ & _ & -> & _).
    destruct Htab. by left. }
  assert (FindStringSubmatch recordRegex line = []) as H2.
  { unfold FindStringSubmatch.
    destruct (find_at recordRegex 0 line) as [caps|] eqn:Hfind; [|done].
    apply recordRegex_sound in Hfind as (pre & k & ws & v & -> & _).
    destruct Htab. rewrite elem_of_app. right. by left. }
  assert (FindStringSubmatch recordRegex2 line = []) as H3.
  { unfold FindStringSubmatch.
    destruct (find_at recordRegex2 0 line) as [caps|] eqn:Hfind; [|done].
    apply recordRegex2_sound in Hfind as (pre & k & -> & _).
    destruct Htab. rewrite elem_of_app. right. by left. }
  split; [done|]. split; [done|]. split; [done|].
  unfold scan_line, scan_normal. rewrite H1, H2, H3. cbn [length].
  rewrite !(bool_decide_eq_false_2 (0 < 0)) by lia.
  case_bool_decide as He; [done|].
  destruct st as [e l d]. simpl in *. by destruct e.
Qed.

Lemma line_without_tab_witness :
  scan_line (go "0x0001") (mkScan (go "Flags") (go "FPU") New)
    (go "Serial Number: 42")
  = mkScan [] (go "FPU") New.
Proof.
  apply (line_without_tab (go "0x0001")
           (mkScan (go "Flags") (go "FPU") New) (go "Serial Number: 42")).
  apply (bool_decide_unpack _). vm_compute. exact I.
Defined.

(** ** The scan on the lines of the report format *)

Lemma not_array_line pre key rest :
  TAB ∉ pre → key ≠ [] → pre ≠ [] ∨ head key ≠ Some TAB →
  FindStringSubmatch inBlockRegex (pre ++ go "\t" ++ key ++ rest) = [].
Proof.
  intros Hpre Hne Hkey. unfold FindStringSubmatch.
  destruct (find_at inBlockRegex 0 _) as [caps|] eqn:Hfind; [|done].
  apply inBlockRegex_sound_NL in Hfind as (f & Hf & _ & Heq & _).
  destruct pre as [|y pre].
  - destruct key as [|x key]; [done|].
    injection Heq as -> _. by destruct Hkey.
  - injection Heq as -> _. destruct Hpre. by left.
Qed.

Lemma scan_line_not_array h st pre key rest :
  TAB ∉ pre → key ≠ [] →
  inBlockElement st = [] ∨ pre ≠ [] ∨ head key ≠ Some TAB →
  scan_line h st (pre ++ go "\t" ++ key ++ rest)
  = scan_normal h (pre ++ go "\t" ++ key ++ rest)
      (mkScan [] (inBlockList st) (dmi st)).
Proof.
  intros Hpre Hkey Hout. unfold scan_line.
  case_bool_decide as He.
  - destruct Hout as [?|Hout]; [done|].
    rewrite (not_array_line pre key rest) by done.
    cbn [length]. by rewrite bool_decide_eq_false_2 by lia.
  - destruct st as [e l d]. cbn [inBlockElement inBlockList dmi] in *.
    by destruct e.
Qed.

(** X6: a line [pre ++ "\t" ++ key ++ ":" ++ ws ++ value], where [pre]
    has no tab, [key] is not empty and has no line break, [ws] is white
    space, not empty, and [value] is not empty, does not start with
    white space and has no colon and no line break.  Read outside an
    array, or read inside an array when it does not begin with two tabs
    ([pre] is not empty or [key] does not begin with a tab), it stores
    the value under the key and leaves the scan outside any array, the
    accumulator kept: the record of the handle holds afterwards the
    value under the key and its other attributes as before.  The
    pattern is not tied to the start of the line: what stands before the
    first tab is skipped, and the key may hold colons and tabs. *)
Theorem key_value_line_stored h st pre key ws value :
  TAB ∉ pre → key ≠ [] →
  inBlockElement st = [] ∨ pre ≠ [] ∨ head key ≠ Some TAB →
  NL ∉ key → spaces ws →
  stops CSpace value → value ≠ [] → NL ∉ value → ":"%char ∉ value →
  scan_line h st (pre ++ go "\t" ++ key ++ go ":" ++ ws ++ value)
  = mkScan [] (inBlockList st) (set_attr h key value (dmi st))
  ∧ ∀ r, Data (dmi st) !! h = Some r →
      Data (dmi (scan_line h st
                   (pre ++ go "\t" ++ key ++ go ":" ++ ws ++ value))) !! h
      = Some (<[key := value]> r)
      ∧ Data (dmi (scan_line h st
                     (pre ++ go "\t" ++ key ++ go ":" ++ ws ++ value))) !! h
          ≫= (.!! key)
        = Some value.
Proof.
  intros Hpre Hkey Hout Hknl Hws Hstop Hval Hvnl Hcolon.
  assert (scan_line h st (pre ++ go "\t" ++ key ++ go ":" ++ ws ++ value)
          = mkScan [] (inBlockList st) (set_attr h key value (dmi st))) as H1.
  { rewrite scan_line_not_array by done. unfold scan_normal.
    cbn [inBlockElement inBlockList dmi].
    rewrite recordRegex_complete by done.
    cbn [length lookup_total list_lookup_total].
    by rewrite !(bool_decide_eq_true_2 (0 < 3)) by lia. }
  split; [done|]. intros r Hr. rewrite H1. cbn [dmi].
  rewrite (set_attr_lookup _ _ _ _ _ Hr). cbn [mbind option_bind].
  split; [done|]. apply lookup_insert_eq.
Qed.

Lemma key_value_line_stored_witness :
  Data (dmi (scan_line (go "0x0001") in_version_array (go "  \ta: b: c")))
    !! go "0x0001" ≫= (.!! go "a: b")
  = Some (go "c").
Proof.
  refine (proj2 (proj2 (key_value_line_stored (go "0x0001") in_version_array
           (go "  ") (go "a: b") (go " ") (go "c") _ _ _ _ _ _ _ _ _)
           {[ go "Version" := go "v1" ]} _)).
  - apply (bool_decide_unpack _). vm_compute. exact I.
  - discriminate.
  - right. left. discriminate.
  - apply (bool_decide_unpack _). vm_compute. exact I.
  - split; [discriminate|]. repeat constructor.
  - reflexivity.
  - discriminate.
  - apply (bool_decide_unpack _). vm_compute. exact I.
  - apply (bool_decide_unpack _). vm_compute. exact I.
  - apply lookup_singleton_eq.
Defined.

(** X7: an array-open line [pre ++ "\t" ++ key ++ ":"], where [pre] has
    no tab and [key] is not empty and has no colon and no line break,
    read outside an array, or inside one when it does not begin with two
    tabs ([pre] is not empty or [key] does not begin with a tab), and
    followed by array lines, two tabs and a fragment that is not empty
    and has no line break.  With no array line nothing is stored.
    Otherwise the value stored under the key is the fragments joined by
    two tabs, behind the value of the array before it in the same record
    when there was one: the record of the handle holds afterwards that
    value under the key. *)
Theorem array_lines_stored h st pre key frags :
  TAB ∉ pre → key ≠ [] →
  inBlockElement st = [] ∨ pre ≠ [] ∨ head key ≠ Some TAB →
  NL ∉ key → ":"%char ∉ key →
  Forall (λ f, f ≠ [] ∧ NL ∉ f) frags →
  foldl (scan_line h) st
    ((pre ++ go "\t" ++ key ++ go ":") :: ((go "\t\t" ++.) <$> frags))
  = match frags with
    | [] => mkScan key (inBlockList st) (dmi st)
    | _ :: _ =>
        let v := if decide (inBlockList st = [])
                 then Strings.Join frags (go "\t\t")
                 else inBlockList st ++ go "\t\t"
                      ++ Strings.Join frags (go "\t\t") in
        mkScan key v (set_attr h key v (dmi st))
    end
  ∧ ∀ r, frags ≠ [] → Data (dmi st) !! h = Some r →
      Data (dmi (foldl (scan_line h) st
                   ((pre ++ go "\t" ++ key ++ go ":")
                    :: ((go "\t\t" ++.) <$> frags)))) !! h ≫= (.!! key)
      = Some (if decide (inBlockList st = [])
              then Strings.Join frags (go "\t\t")
              else inBlockList st ++ go "\t\t"
                   ++ Strings.Join frags (go "\t\t")).
Proof.
  intros Hpre Hkey Hout Hknl Hcolon Hfrags.
  destruct (recordRegex2_complete pre key) as [Hrec Hrec2]; [done..|].
  assert (scan_line h st (pre ++ go "\t" ++ key ++ go ":")
          = mkScan key (inBlockList st) (dmi st)) as Hopen.
  { rewrite (scan_line_not_array h st pre key (go ":")) by done.
    unfold scan_normal.
    cbn [inBlockElement inBlockList dmi]. rewrite Hrec, Hrec2.
    cbn [length lookup_total list_lookup_total].
    rewrite !(bool_decide_eq_false_2 (0 < 0)) by lia.
    by rewrite !(bool_decide_eq_true_2 (0 < 2)) by lia. }
  cbn [foldl]. rewrite Hopen.
  destruct frags as [|f frags]; [done|].
  rewrite scan_lines_array by done. split; [done|].
  intros r _ Hr. cbn [dmi inBlockList].
  rewrite (set_attr_lookup _ _ _ _ _ Hr). cbn [mbind option_bind].
  apply lookup_insert_eq.
Qed.

Lemma array_lines_stored_witness :
  Data (dmi (foldl (scan_line (go "0x0001")) in_version_array
               [go "\tCharacteristics:"; go "\t\t64-bit capable"]))
    !! go "0x0001" ≫= (.!! go "Characteristics")
  = Some (go "v1\t\t64-bit capable").
Proof.
  refine (proj2 (array_lines_stored (go "0x0001") in_version_array
           [] (go "Characteristics") [go "64-bit capable"] _ _ _ _ _ _)
           {[ go "Version" := go "v1" ]} _ _).
  - by intros ?%elem_of_nil.
  - discriminate.
  - right. right. discriminate.
  - apply (bool_decide_unpack _). vm_compute. exact I.
  - apply (bool_decide_unpack _). vm_compute. exact I.
  - repeat constructor; [discriminate|].
    apply (bool_decide_unpack _). vm_compute. exact I.
  - discriminate.
  - apply lookup_singleton_eq.
Defined.

(** ** The names and the values of the attributes *)

Lemma well_named_insert k v r :
  k ≠ [] → v ≠ [] → well_named r → well_named (<[k := v]> r).
Proof.
  intros Hk Hv Hr k' v'. destruct (decide (k = k')) as [<-|Hne].
  - rewrite lookup_insert_eq. intros [= <-]. done.
  - rewrite lookup_insert_ne by done. apply Hr.
Qed.

Lemma well_named_union r1 r2 :
  well_named r1 → well_named r2 → well_named (r1 ∪ r2).
Proof.
  intros H1 H2 k v [Hk|[_ Hk]]%lookup_union_Some_raw; eauto.
Qed.

Lemma FindStringSubmatch_pos r line :
  0 < length (FindStringSubmatch r line) →
  ∃ caps, find_at r 0 line = Some caps ∧ FindStringSubmatch r line = caps.
Proof.
  unfold FindStringSubmatch. destruct (find_at r 0 line) as [caps|]; simpl.
  - by exists caps.
  - lia.
Qed.

Lemma scan_line_rec_named e l r line :
  well_named r → well_named (scan_line_rec (e, l, r) line).2.
Proof.
  intros Hr.
  unfold scan_line_rec, scan_line, scan_normal, lift, set_attr.
  cbn [inBlockElement inBlockList dmi Data fst snd].
  assert (∀ st : scan_state, st = st) as _ by done.
  destruct (bool_decide (e ≠ [])) eqn:He;
    [destruct (bool_decide
                 (0 < length (FindStringSubmatch inBlockRegex line))) eqn:Hb|].
  - apply bool_decide_eq_true_1 in He, Hb.
    apply FindStringSubmatch_pos in Hb as (caps & Hfind & ->).
    apply inBlockRegex_sound_NL in Hfind as (f & Hf & _ & _ & ->).
    cbn [inBlockElement inBlockList dmi Data snd lookup_total
         list_lookup_total].
    rewrite alter_insert_eq, lookup_total_insert_eq.
    apply well_named_insert; [done| |done].
    case_bool_decide; [done|]. by destruct l.
  - destruct (bool_decide
                (0 < length (FindStringSubmatch recordRegex line))) eqn:Hr1;
      [|destruct (bool_decide
                    (0 < length (FindStringSubmatch recordRegex2 line)))].
    + apply bool_decide_eq_true_1 in Hr1.
      apply FindStringSubmatch_pos in Hr1 as (caps & Hfind & ->).
      apply recordRegex_sound in Hfind
        as (pre & k & ws & v & _ & Hk & _ & _ & Hv & _ & ->).
      cbn [inBlockElement inBlockList dmi Data snd lookup_total
           list_lookup_total].
      rewrite alter_insert_eq, lookup_total_insert_eq.
      by apply well_named_insert.
    + cbn [inBlockElement inBlockList dmi Data snd].
      by rewrite lookup_total_insert_eq.
    + cbn [inBlockElement inBlockList dmi Data snd].
      by rewrite lookup_total_insert_eq.
  - destruct (bool_decide
                (0 < length (FindStringSubmatch recordRegex line))) eqn:Hr1;
      [|destruct (bool_decide
                    (0 < length (FindStringSubmatch recordRegex2 line)))].
    + apply bool_decide_eq_true_1 in Hr1.
      apply FindStringSubmatch_pos in Hr1 as (caps & Hfind & ->).
      apply recordRegex_sound in Hfind
        as (pre & k & ws & v & _ & Hk & _ & _ & Hv & _ & ->).
      cbn [inBlockElement inBlockList dmi Data snd lookup_total
           list_lookup_total].
      rewrite alter_insert_eq, lookup_total_insert_eq.
      by apply well_named_insert.
    + cbn [inBlockElement inBlockList dmi Data snd].
      by rewrite lookup_total_insert_eq.
    + cbn [inBlockElement inBlockList dmi Data snd].
      by rewrite lookup_total_insert_eq.
Qed.

Lemma scan_lines_rec_named lines s :
  well_named s.2 → well_named (foldl scan_line_rec s lines).2.
Proof.
  revert s. induction lines as [|line lines IH]; intros s Hs; [done|].
  cbn [foldl]. apply IH. destruct s as [[e l] r].
  by apply scan_line_rec_named.
Qed.

Lemma attr_scan_named lines r : well_named r → well_named (attr_scan lines r).
Proof. intros Hr. by apply scan_lines_rec_named. Qed.

Lemma block_entry_named b h r :
  block_entry b = Some (h, r) → h ≠ [] ∧ (NL ∉ h) ∧ well_named r.
Proof.
  unfold block_entry. case_bool_decide as Hlen; [done|].
  case_bool_decide as Hhd; [done|].
  unfold FindStringSubmatch in *.
  destruct (find_at handleRegex 0 _) as [caps|] eqn:Hfind; [|done].
  apply handleRegex_sound_NL in Hfind
    as (h' & t & sz & Hline & Hh' & Hnl & ->).
  cbn [default lookup_total list_lookup_total]. intros [= <- <-].
  split; [done|]. split; [done|].
  destruct Hline as (? & ? & ? & ? & ? & ? & _ & _ & _ & _ & _ & _
                     & [Ht _] & [Hsz _] & _).
  apply attr_scan_named.
  intros k v. destruct (decide (k = DMIName)) as [->|Hn].
  { intros _. split; [discriminate|done]. }
  rewrite lookup_insert_ne by done.
  destruct (decide (k = DMISize)) as [->|Hs].
  { rewrite lookup_insert_eq. intros [= <-]. split; [discriminate|done]. }
  rewrite lookup_insert_ne by done.
  destruct (decide (k = DMIType)) as [->|Ht'].
  { rewrite lookup_insert_eq. intros [= <-]. split; [discriminate|done]. }
  rewrite lookup_insert_ne by done. by rewrite lookup_empty.
Qed.

(** X8: the parser keeps the names in order.  Every handle it adds is
    non-empty and holds no line break; in every record it adds no
    attribute has the empty name, and no attribute but the name of the
    record has the empty value.  So an attribute of a parsed record that
    reads as the empty string, other than the name, is absent. *)
Theorem names_not_empty text d h r :
  (∀ h0 r0, Data d !! h0 = Some r0 → h0 ≠ [] ∧ (NL ∉ h0) ∧ well_named r0) →
  Data (ParseDmidecode text d).2 !! h = Some r →
  h ≠ [] ∧ (NL ∉ h) ∧ well_named r
  ∧ ∀ k, k ≠ DMIName → (index r k = [] ↔ r !! k = None).
Proof.
  intros Hd Hr. rewrite ParseDmidecode_Data in Hr.
  assert (h ≠ [] ∧ (NL ∉ h) ∧ well_named r) as (Hh & Hnl & Hnamed).
  { apply add_entries_origin in Hr as [Hr|(b & _ & Hb)].
    - by apply Hd.
    - by apply block_entry_named in Hb. }
  split; [done|]. split; [done|]. split; [done|].
  intros k Hk. unfold index. split.
  - destruct (r !! k) as [v|] eqn:Hv; [|done]. simpl. intros ->.
    destruct (Hnamed k [] Hv) as [_ Hn]. destruct Hk. by apply Hn.
  - by intros ->.
Qed.

Lemma names_not_empty_witness :
  well_named
    (block_attrs first_report
     ∪ <[DMIName := Strings.Split first_report (go "\n") !!! 1]>
         (<[DMISize := go "27"]> (<[DMIType := go "1"]> ∅))).
Proof.
  refine (proj1 (proj2 (proj2 (names_not_empty first_report New
                                 (go "0x0001") _ _ first_report_record)))).
  intros h0 r0 Hr0. cbn [New Data] in Hr0. by rewrite lookup_empty in Hr0.
Defined.

(** ** Parsing more than once *)

Lemma ParseDmidecode_unfold text d :
  ParseDmidecode text d
  = let d' := mkDMI (foldl add_entry (Data d)
                       (Strings.Split text (go "\n\n"))) (Binary d) in
    (if bool_decide (size (Data d') = 0) then Some EmptyResult else None, d').
Proof.
  unfold ParseDmidecode. rewrite parse_records_entries. cbn zeta.
  by case_bool_decide.
Qed.

Lemma add_entries_from_empty D records :
  foldl add_entry D records = foldl add_entry ∅ records ∪ D.
Proof. by rewrite <- add_entries_union, (left_id_L ∅ (∪)). Qed.

(** X9: a parse into a table that holds a record never gives the error,
    whatever the text is; a text without any header line is then
    accepted and changes nothing.  The error tells that the table is
    empty, not that the text had no record. *)
Theorem parse_on_filled_table text d :
  Data d ≠ ∅ →
  (ParseDmidecode text d).1 = None
  ∧ (Forall (λ b, FindStringSubmatch handleRegex
                    (Strings.Split b (go "\n") !!! 0) = [])
       (Strings.Split text (go "\n\n")) →
     ParseDmidecode text d = (None, d)).
Proof.
  intros Hd.
  assert (Data (ParseDmidecode text d).2 ≠ ∅) as Hne.
  { rewrite ParseDmidecode_Data.
    apply map_choose in Hd as (h & r & Hr).
    destruct (add_entries_keeps (Data d) (Strings.Split text (go "\n\n")) h)
      as [r' Hr']; [eauto|].
    intros Hempty. by rewrite Hempty, lookup_empty in Hr'. }
  assert ((ParseDmidecode text d).1 = None) as Herr.
  { rewrite ParseDmidecode_error. by rewrite bool_decide_eq_false_2. }
  split; [done|]. intros Hnone.
  rewrite (surjective_pairing (ParseDmidecode text d)), Herr. f_equal.
  unfold ParseDmidecode.
  assert (foldl parse_record d (Strings.Split text (go "\n\n")) = d) as ->.
  { induction Hnone as [|b bs Hb _ IH]; [done|]. cbn [foldl].
    assert (parse_record d b = d) as ->; [|done].
    unfold parse_record. case_bool_decide; [done|]. by rewrite Hb. }
  by case_bool_decide.
Qed.

Lemma parse_on_filled_table_witness :
  ParseDmidecode (go "no header here") one_table = (None, one_table).
Proof.
  apply (parse_on_filled_table (go "no header here") one_table).
  - apply (bool_decide_unpack _). vm_compute. exact I.
  - match goal with
    | |- Forall _ ?l => let l' := eval vm_compute in l in change l with l'
    end.
    repeat constructor.
Defined.

(** X10: parsing one text twice gives what parsing it once gives. *)
Theorem parse_twice text d :
  ParseDmidecode text (ParseDmidecode text d).2 = ParseDmidecode text d.
Proof.
  rewrite !ParseDmidecode_unfold. cbn zeta. cbn [snd Data Binary].
  assert (foldl add_entry
            (foldl add_entry (Data d) (Strings.Split text (go "\n\n")))
            (Strings.Split text (go "\n\n"))
          = foldl add_entry (Data d) (Strings.Split text (go "\n\n"))) as ->;
    [|done].
  rewrite (add_entries_from_empty (foldl _ _ _)).
  rewrite (add_entries_from_empty (Data d)).
  by rewrite (assoc_L (∪)), (idemp_L (∪)).
Qed.

(** Two texts put together with a blank line between them split into
    the blocks of the first and the blocks of the second, when the first
    does not end with a line break. *)
Lemma split_go_blank_line t1 t2 cur :
  last t1 ≠ Some NL →
  Strings.split_go (go "\n\n") 0 cur (t1 ++ go "\n\n" ++ t2)
  = Strings.split_go (go "\n\n") 0 cur t1
    ++ Strings.split_go (go "\n\n") 0 [] t2.
Proof.
  remember (length t1) as n eqn:Hn. revert t1 cur Hn.
  induction n as [n IH] using lt_wf_ind. intros t1 cur -> Hlast.
  destruct t1 as [|c t1]; [done|].
  destruct t1 as [|c' t1].
  - assert (c ≠ NL) as Hc by (by intros ->).
    change (Strings.split_go (go "\n\n") 0 cur ([c] ++ go "\n\n" ++ t2))
      with (if Ascii.eqb NL c && true
            then reverse cur :: Strings.split_go (go "\n\n") 1 []
                                  (go "\n\n" ++ t2)
            else Strings.split_go (go "\n\n") 0 (c :: cur)
                   (go "\n\n" ++ t2)).
    change (Strings.split_go (go "\n\n") 0 cur [c])
      with (if Ascii.eqb NL c && false
            then reverse cur :: Strings.split_go (go "\n\n") 1 [] []
            else Strings.split_go (go "\n\n") 0 (c :: cur) []).
    assert (Ascii.eqb NL c = false) as -> by (by apply Ascii.eqb_neq).
    done.
  - change (Strings.split_go (go "\n\n") 0 cur
              ((c :: c' :: t1) ++ go "\n\n" ++ t2))
      with (if Ascii.eqb NL c && (Ascii.eqb NL c' && true)
            then reverse cur :: Strings.split_go (go "\n\n") 0 []
                                  (t1 ++ go "\n\n" ++ t2)
            else Strings.split_go (go "\n\n") 0 (c :: cur)
                   ((c' :: t1) ++ go "\n\n" ++ t2)).
    change (Strings.split_go (go "\n\n") 0 cur (c :: c' :: t1))
      with (if Ascii.eqb NL c && (Ascii.eqb NL c' && true)
            then reverse cur :: Strings.split_go (go "\n\n") 0 [] t1
            else Strings.split_go (go "\n\n") 0 (c :: cur) (c' :: t1)).
    destruct (Ascii.eqb NL c && (Ascii.eqb NL c' && true)).
    + rewrite (IH (length t1)); [done|simpl; lia|done|].
      destruct t1; [done|]. by rewrite !last_cons_cons in Hlast.
    + rewrite (IH (length (c' :: t1))); [done|simpl; lia|done|].
      by rewrite last_cons_cons in Hlast.
Qed.

(** X11: parsing two texts put together with a blank line between them
    gives what parsing the first and then the second gives, when the
    first does not end with a line break. *)
Theorem parse_appended t1 t2 d :
  last t1 ≠ Some NL →
  ParseDmidecode (t1 ++ go "\n\n" ++ t2) d
  = ParseDmidecode t2 (ParseDmidecode t1 d).2.
Proof.
  intros Hlast. rewrite !ParseDmidecode_unfold. cbn zeta.
  cbn [snd Data Binary]. unfold Strings.Split.
  by rewrite split_go_blank_line, foldl_app.
Qed.

Lemma parse_appended_witness :
  ParseDmidecode repeated_handle New
  = ParseDmidecode second_block (ParseDmidecode first_report New).2.
Proof.
  apply (parse_appended first_report second_block New).
  vm_compute. discriminate.
Defined.

(** X12: a parse into an empty table succeeds exactly when some block
    of the text has three lines or more and a header line with the label
    [DMI] as its first line. *)
Theorem parse_succeeds_iff text d :
  Data d = ∅ →
  (ParseDmidecode text d).1 = None
  ↔ ∃ b h t sz,
      b ∈ Strings.Split text (go "\n\n")
      ∧ 3 ≤ length (Strings.Split b (go "\n"))
      ∧ h ≠ []
      ∧ header_line (go "DMI") h t sz (Strings.Split b (go "\n") !!! 0).
Proof.
  intros Hd. rewrite ParseDmidecode_error, ParseDmidecode_Data, Hd. split.
  - case_bool_decide as He; [done|]. intros _.
    apply map_choose in He as (h & r & Hr).
    apply add_entries_origin in Hr as [Hr|(b & Hin & Hb)];
      [by rewrite lookup_empty in Hr|].
    pose proof (block_entry_named _ _ _ Hb) as (Hh & _ & _).
    apply block_entry_Some in Hb as (t & sz & Hlen & Hline & _).
    by exists b, h, t, sz.
  - intros (b & h & t & sz & Hin & Hlen & Hh & Hline).
    rewrite bool_decide_eq_false_2; [done|].
    assert (NL ∉ h) as Hnl.
    { assert (NL ∉ Strings.Split b (go "\n") !!! 0) as Hnl.
      { apply (Split_line_no_NL b). apply list_elem_of_lookup. exists 0.
        apply list_lookup_lookup_total_lt. lia. }
      destruct Hline as (w1 & w2 & w3 & w4 & w5 & w6 & _ & _ & _ & _ & _ & _
                         & _ & _ & Heq).
      rewrite Heq in Hnl. intros Hh'. apply Hnl.
      rewrite !elem_of_app. right. right. by left. }
    destruct (handleRegex_matches h t sz _ Hline Hh Hnl) as [caps Hfind].
    pose proof Hfind as Hfind'.
    apply handleRegex_sound_NL in Hfind' as (h' & t' & sz' & _ & _ & _ & ->).
    assert (∃ r, block_entry b = Some (h', r)) as [r Hb].
    { unfold block_entry. rewrite bool_decide_eq_false_2 by lia.
      unfold FindStringSubmatch. rewrite Hfind.
      cbn [default from_option id length].
      rewrite bool_decide_eq_false_2 by lia. eauto. }
    apply list_elem_of_split in Hin as (pre & post & ->).
    rewrite foldl_app. cbn [foldl].
    destruct (add_entries_keeps
                (add_entry (foldl add_entry ∅ pre) b) post h') as [r' Hr'].
    { unfold add_entry at 1. rewrite Hb, lookup_insert_eq. eauto. }
    intros Hempty. by rewrite Hempty, lookup_empty in Hr'.
Qed.

Lemma parse_succeeds_iff_witness :
  (ParseDmidecode first_report New).1 = None
  ↔ ∃ b h t sz,
      b ∈ Strings.Split first_report (go "\n\n")
      ∧ 3 ≤ length (Strings.Split b (go "\n"))
      ∧ h ≠ []
      ∧ header_line (go "DMI") h t sz (Strings.Split b (go "\n") !!! 0).
Proof. apply (parse_succeeds_iff first_report New). reflexivity. Defined.

(** ** Queries and the order of the table *)

Lemma iteration_order_elem d order h v :
  iteration_order d order → (h, v) ∈ order ↔ Data d !! h = Some v.
Proof.
  unfold iteration_order. intros ->. apply elem_of_map_to_list.
Qed.

(** X13: when all the records whose attribute has the value are one and
    the same record, the query returns it in whatever order the table is
    visited. *)
Theorem search_unique order param value d h v :
  iteration_order d order →
  Data d !! h = Some v → index v param = value →
  (∀ h' v', Data d !! h' = Some v' → index v' param = value → v' = v) →
  GenericSearchBy order param value d = (Some v, None, d).
Proof.
  intros Hord Hv Hval Huniq. unfold GenericSearchBy.
  rewrite bool_decide_eq_false_2; last first.
  { rewrite map_size_empty_iff. intros He. by rewrite He, lookup_empty in Hv. }
  destruct (range_search param value order) as [v'|] eqn:Hs.
  - apply range_search_Some in Hs as (h' & Hin & Hv').
    apply (iteration_order_elem d order) in Hin; [|done].
    by rewrite (Huniq h' v').
  - exfalso. apply (range_search_None _ _ _ Hs h v); [|done].
    by apply (iteration_order_elem d order).
Qed.

Lemma search_unique_witness :
  GenericSearchBy [(go "0x0001", one_record)] DMIName
    (go "System Information") one_table
  = (Some one_record, None, one_table).
Proof.
  apply (search_unique _ _ _ one_table (go "0x0001")).
  - unfold iteration_order, one_table. cbn [Data].
    rewrite map_to_list_singleton. reflexivity.
  - apply lookup_singleton_eq.
  - vm_compute. reflexivity.
  - intros h' v' Hv' _. unfold one_table in Hv'. cbn [Data] in Hv'.
    apply lookup_singleton_Some in Hv' as [_ <-]. reflexivity.
Defined.

(** X14: when two different records have the value, which of them the
    query returns depends on the order in which the table is visited:
    there is an order for each. *)
Theorem search_order_dependent param value d h1 h2 v1 v2 :
  Data d !! h1 = Some v1 → Data d !! h2 = Some v2 → v1 ≠ v2 →
  index v1 param = value → index v2 param = value →
  ∃ order1 order2,
    iteration_order d order1 ∧ iteration_order d order2
    ∧ GenericSearchBy order1 param value d = (Some v1, None, d)
    ∧ GenericSearchBy order2 param value d = (Some v2, None, d).
Proof.
  intros H1 H2 Hne Hp1 Hp2.
  assert (∀ h v, Data d !! h = Some v → index v param = value →
            ∃ order, iteration_order d order
              ∧ GenericSearchBy order param value d = (Some v, None, d))
    as Hfirst.
  { intros h v Hv Hp. exists ((h, v) :: map_to_list (delete h (Data d))).
    split.
    - unfold iteration_order.
      rewrite <- (insert_delete_id (Data d) h v Hv) at 2.
      symmetry. apply map_to_list_insert, lookup_delete_eq.
    - unfold GenericSearchBy. rewrite bool_decide_eq_false_2; last first.
      { rewrite map_size_empty_iff. intros He.
        by rewrite He, lookup_empty in Hv. }
      cbn [range_search]. by rewrite bool_decide_eq_true_2. }
  destruct (Hfirst h1 v1 H1 Hp1) as (o1 & Ho1 & Hs1).
  destruct (Hfirst h2 v2 H2 Hp2) as (o2 & Ho2 & Hs2).
  by exists o1, o2.
Qed.

(** X15: a query on the value a parse leaves reports that the table was
    never filled exactly when that parse reported that it extracted
    nothing. *)
Theorem search_after_parse text d order param value :
  (GenericSearchBy order param value (ParseDmidecode text d).2).1.2
    = Some NotInitialized
  ↔ (ParseDmidecode text d).1 = Some EmptyResult.
Proof.
  rewrite ParseDmidecode_error. unfold GenericSearchBy.
  case_bool_decide as Hsz.
  - apply map_size_empty_iff in Hsz. by rewrite bool_decide_eq_true_2.
  - apply map_size_non_empty_iff in Hsz. rewrite bool_decide_eq_false_2 by done.
    by destruct (range_search param value order).
Qed.

Lemma search_order_dependent_witness :
  ∃ order1 order2,
    iteration_order two_modules order1 ∧ iteration_order two_modules order2
    ∧ GenericSearchBy order1 DMIName (go "Memory Device") two_modules
      = (Some small_module, None, two_modules)
    ∧ GenericSearchBy order2 DMIName (go "Memory Device") two_modules
      = (Some large_module, None, two_modules).
Proof.
  apply (search_order_dependent DMIName (go "Memory Device") two_modules
           (go "0x0011") (go "0x0012")).
  - vm_compute. reflexivity.
  - vm_compute. reflexivity.
  - intros Heq. apply (f_equal (.!! go "Size")) in Heq.
    vm_compute in Heq. discriminate Heq.
  - vm_compute. reflexivity.
  - vm_compute. reflexivity.
Defined.

(** ** SearchByType and the decimal form *)

Lemma Itoa_inj i j : Itoa i = Itoa j → i = j.
Proof.
  unfold Itoa. intros Heq.
  apply (f_equal string_of_list_ascii) in Heq.
  rewrite !string_of_list_ascii_of_string in Heq.
  apply (f_equal NilEmpty.int_of_string) in Heq.
  rewrite !NilEmpty.isi in Heq. injection Heq as Heq.
  by apply DecimalZ.to_int_inj.
Qed.

(** X16: [SearchByType] looks for the decimal form of the number in the
    type attribute.  On a table with records it returns an empty map
    when no record has that form as its type, and else a record of the
    table that has it; such a record is found under no other number. *)
Theorem SearchByType_decimal order id d res :
  iteration_order d order → Data d ≠ ∅ →
  (SearchByType order id d).1.1 = Some res →
  (res = ∅ ∧ ∀ h v, Data d !! h = Some v → index v DMIType ≠ Itoa id)
  ∨ ((∃ h, Data d !! h = Some res)
     ∧ index res DMIType = Itoa id
     ∧ ∀ j, j ≠ id → index res DMIType ≠ Itoa j).
Proof.
  intros Hord Hd. unfold SearchByType, GenericSearchBy.
  rewrite bool_decide_eq_false_2 by (by rewrite map_size_empty_iff).
  destruct (range_search (go "DMIType") (Itoa id) order) as [v|] eqn:Hs;
    cbn [fst snd]; intros [= <-].
  - right. apply range_search_Some in Hs as (h & Hin & Hv).
    apply (iteration_order_elem d order) in Hin; [|done].
    split; [by exists h|]. split; [done|].
    intros j Hj Hvj. apply Hj. symmetry. apply Itoa_inj.
    by rewrite <- Hvj.
  - left. split; [done|]. intros h v Hv.
    apply (range_search_None _ _ _ Hs h v).
    by apply (iteration_order_elem d order).
Qed.

Lemma SearchByType_decimal_witness :
  (∅ : gmap gostring gostring) = ∅
  ∧ ∀ h v, Data one_table !! h = Some v → index v DMIType ≠ Itoa 1.
Proof.
  destruct (SearchByType_decimal [(go "0x0001", one_record)] 1 one_table ∅)
    as [H|(_ & H & _)].
  - unfold iteration_order, one_table. cbn [Data].
    rewrite map_to_list_singleton. reflexivity.
  - apply (bool_decide_unpack _). vm_compute. exact I.
  - vm_compute. reflexivity.
  - exact H.
  - vm_compute in H. discriminate H.
Defined.

(** ** FindBin and Run *)

Lemma FindBin_loop_Some os binary paths lookup :
  FindBin_loop os binary paths = Some lookup
  ↔ ∃ pre path post, paths = pre ++ path :: post
      ∧ lookup = path ++ go "/" ++ binary
      ∧ usable os binary path
      ∧ ∀ p, p ∈ pre → ¬ usable os binary p.
Proof.
  induction paths as [|path paths IH]; cbn [FindBin_loop].
  - split; [done|]. intros (pre & p & post & Heq & _). by destruct pre.
  - destruct (Stat os (path ++ go "/" ++ binary)) as [fi|] eqn:Hstat;
      [destruct (IsDir fi) eqn:Hdir|]; cbn [negb].
    + rewrite IH. split.
      * intros (pre & p & post & -> & -> & Hu & Hpre).
        exists (path :: pre), p, post. split; [done|]. split; [done|].
        split; [done|]. intros q [->|Hq]%elem_of_cons; [|by apply Hpre].
        intros (fi' & Hfi' & Hd'). congruence.
      * intros (pre & p & post & Heq & -> & Hu & Hpre).
        destruct pre as [|q pre]; cbn [app] in Heq; injection Heq as -> ->.
        -- destruct Hu as (fi' & Hfi' & Hd'). congruence.
        -- exists pre, p, post. split; [done|]. split; [done|].
           split; [done|]. intros q' Hq'. apply Hpre. by right.
    + split.
      * intros [= <-]. exists [], path, paths. split; [done|]. split; [done|].
        split; [by exists fi|]. by intros q ?%elem_of_nil.
      * intros (pre & p & post & Heq & -> & Hu & Hpre).
        destruct pre as [|q pre]; cbn [app] in Heq; injection Heq as -> ->;
          [done|].
        destruct (Hpre q); [by left|]. by exists fi.
    + rewrite IH. split.
      * intros (pre & p & post & -> & -> & Hu & Hpre).
        exists (path :: pre), p, post. split; [done|]. split; [done|].
        split; [done|]. intros q [->|Hq]%elem_of_cons; [|by apply Hpre].
        intros (fi' & Hfi' & Hd'). congruence.
      * intros (pre & p & post & Heq & -> & Hu & Hpre).
        destruct pre as [|q pre]; cbn [app] in Heq; injection Heq as -> ->.
        -- destruct Hu as (fi' & Hfi' & Hd'). congruence.
        -- exists pre, p, post. split; [done|]. split; [done|].
           split; [done|]. intros q' Hq'. apply Hpre. by right.
Qed.

Lemma FindBin_loop_None os binary paths :
  FindBin_loop os binary paths = None
  ↔ ∀ p, p ∈ paths → ¬ usable os binary p.
Proof.
  destruct (FindBin_loop os binary paths) as [lookup|] eqn:Hl.
  - apply FindBin_loop_Some in Hl as (pre & p & post & -> & _ & Hu & _).
    split; [done|]. intros Hno. destruct (Hno p); [|done].
    rewrite elem_of_app. right. by left.
  - split; [|done]. intros _ p Hp Hu.
    apply list_elem_of_split in Hp as (pre & post & ->).
    assert (∃ pre' p' post', pre ++ p :: post = pre' ++ p' :: post'
              ∧ usable os binary p'
              ∧ ∀ q, q ∈ pre' → ¬ usable os binary q) as Hfirst.
    { clear Hl. induction pre as [|q pre IH].
      - exists [], p, post. split; [done|]. split; [done|].
        by intros q ?%elem_of_nil.
      - destruct IH as (pre' & p' & post' & Heq & Hu' & Hpre').
        destruct (Stat os (q ++ go "/" ++ binary)) as [fi|] eqn:Hstat;
          [destruct (IsDir fi) eqn:Hdir|].
        + exists (q :: pre'), p', post'.
          split; [cbn [app]; by rewrite Heq|].
          split; [done|]. intros q' [->|Hq']%elem_of_cons; [|by apply Hpre'].
          intros (fi' & Hfi' & Hd'). congruence.
        + exists [], q, (pre ++ p :: post). split; [done|].
          split; [by exists fi|]. by intros q' ?%elem_of_nil.
        + exists (q :: pre'), p', post'.
          split; [cbn [app]; by rewrite Heq|].
          split; [done|]. intros q' [->|Hq']%elem_of_cons; [|by apply Hpre'].
          intros (fi' & Hfi' & Hd'). congruence. }
    destruct Hfirst as (pre' & p' & post' & Heq & Hu' & Hpre').
    assert (FindBin_loop os binary (pre ++ p :: post)
            = Some (p' ++ go "/" ++ binary)) as Hsome.
    { apply FindBin_loop_Some. by exists pre', p', post'. }
    congruence.
Qed.

(** X17: [FindBin] returns the binary under the first of [/sbin],
    [/usr/sbin] and [/usr/local/sbin] where [os.Stat] answers for it
    with something that is no directory; it gives its error exactly when
    there is none, and then returns the empty string. *)
Theorem FindBin_first os binary :
  (∀ lookup,
     FindBin os binary = (lookup, None)
     ↔ ∃ pre path post, locations = pre ++ path :: post
         ∧ lookup = path ++ go "/" ++ binary
         ∧ usable os binary path
         ∧ ∀ p, p ∈ pre → ¬ usable os binary p)
  ∧ ((FindBin os binary).2 ≠ None
     ↔ ∀ p, p ∈ locations → ¬ usable os binary p)
  ∧ ((FindBin os binary).2 ≠ None → (FindBin os binary).1 = []).
Proof.
  unfold FindBin. split; [|split].
  - intros lookup. rewrite <- FindBin_loop_Some.
    destruct (FindBin_loop os binary locations) as [l|]; split;
      intros H; by simplify_eq.
  - rewrite <- FindBin_loop_None.
    destruct (FindBin_loop os binary locations) as [l|]; split;
      intros H; by simplify_eq.
  - by destruct (FindBin_loop os binary locations) as [l|].
Qed.

(** X18: [Run] never changes [Binary].  When it returns no error it has
    parsed the output of the binary that [FindBin] found for [Binary],
    the table holds a record, and no query reports that the table was
    never filled.  When the binary is not found or its run fails, [Run]
    returns that error and leaves the table as it was. *)
Theorem Run_result os d :
  Binary (Run os d).2 = Binary d
  ∧ ((Run os d).1 = None →
     Data (Run os d).2 ≠ ∅
     ∧ (∃ bin output, FindBin os (Binary d) = (bin, None)
          ∧ Output os bin = (output, None)
          ∧ Run os d = ParseDmidecode output d)
     ∧ ∀ order param value,
         (GenericSearchBy order param value (Run os d).2).1.2 = None)
  ∧ (∀ e, (FindBin os (Binary d)).2 = Some e → Run os d = (Some e, d))
  ∧ (∀ bin output e, FindBin os (Binary d) = (bin, None) →
       Output os bin = (output, Some e) → Run os d = (Some e, d)).
Proof.
  unfold Run, ExecDmidecode.
  destruct (FindBin os (Binary d)) as [bin [e|]] eqn:Hfind.
  { cbn [fst snd]. split; [done|]. split; [done|]. split.
    - by intros e' [= ->].
    - by intros bin' output e' [= _]. }
  destruct (Output os bin) as [output [e|]] eqn:Hout.
  { cbn [fst snd]. split; [done|]. split; [done|]. split; [done|].
    intros bin' output' e' [= <-]. rewrite Hout. by intros [= _ ->]. }
  pose proof (ParseDmidecode_Binary output d) as Hbin.
  pose proof (ParseDmidecode_error output d) as Herr.
  destruct (ParseDmidecode output d) as [[e|] d'] eqn:Hparse;
    cbn [fst snd] in *.
  { split; [done|]. split; [done|]. split; [done|].
    intros bin' output' e' [= <-]. by rewrite Hout. }
  split; [done|]. split; [|split; [done|]].
  - intros _.
    assert (Data d' ≠ ∅) as Hne by (by case_bool_decide).
    split; [done|]. split; [by exists bin, output|].
    intros order param value. unfold GenericSearchBy.
    rewrite bool_decide_eq_false_2 by (by rewrite map_size_empty_iff).
    by destruct (range_search param value order).
  - intros bin' output' e' [= <-]. by rewrite Hout.
Qed.

(** * The header line and the blocks of one handle *)

(** A block carries the handle [h] when its first line is a header line
    for [h]; such a block of fewer than three lines is skipped. *)
Lemma later_blocks_skipped h (post : list gostring) :
  (∀ b', b' ∈ post →
     length (Strings.Split b' (go "\n")) < 3
     ∨ ∀ t' sz', ¬ header_line (go "DMI") h t' sz'
                     (Strings.Split b' (go "\n") !!! 0)) →
  ∀ b' r', b' ∈ post → block_entry b' ≠ Some (h, r').
Proof.
  intros Hpost b' r' Hin Hb'.
  apply block_entry_Some in Hb' as (t' & sz' & Hlen & Hline & _).
  destruct (Hpost b' Hin) as [?|Hno]; [lia|]. by destruct (Hno t' sz').
Qed.

Lemma header_handle_no_NL b h t sz :
  3 ≤ length (Strings.Split b (go "\n")) →
  header_line (go "DMI") h t sz (Strings.Split b (go "\n") !!! 0) →
  NL ∉ h.
Proof.
  intros Hlen Hline.
  assert (NL ∉ Strings.Split b (go "\n") !!! 0) as Hnl.
  { apply (Split_line_no_NL b). apply list_elem_of_lookup. exists 0.
    apply list_lookup_lookup_total_lt. lia. }
  destruct Hline as (w1 & w2 & w3 & w4 & w5 & w6 & _ & _ & _ & _ & _ & _
                     & _ & _ & Heq).
  rewrite Heq in Hnl. intros Hin. apply Hnl.
  rewrite !elem_of_app. right. right. by left.
Qed.

(** A block of three lines or more whose first line is a header line
    yields an entry, under a handle for which it is a header line. *)
Lemma block_entry_matches b h0 t0 sz0 :
  3 ≤ length (Strings.Split b (go "\n")) →
  header_line (go "DMI") h0 t0 sz0 (Strings.Split b (go "\n") !!! 0) →
  h0 ≠ [] →
  ∃ h t sz, h ≠ [] ∧ (NL ∉ h)
    ∧ header_line (go "DMI") h t sz (Strings.Split b (go "\n") !!! 0)
    ∧ block_entry b
      = Some (h, block_attrs b
                 ∪ <[DMIName := Strings.Split b (go "\n") !!! 1]>
                     (<[DMISize := sz]> (<[DMIType := t]> ∅))).
Proof.
  intros Hlen Hline Hh0.
  pose proof (header_handle_no_NL b h0 t0 sz0 Hlen Hline) as Hnl.
  destruct (handleRegex_matches h0 t0 sz0 _ Hline Hh0 Hnl) as [caps Hfind].
  pose proof Hfind as Hfind'.
  apply handleRegex_sound_NL in Hfind' as (h & t & sz & Hl & Hh & Hhnl & ->).
  exists h, t, sz. split; [done|]. split; [done|]. split; [done|].
  unfold block_entry. rewrite bool_decide_eq_false_2 by lia.
  unfold FindStringSubmatch. rewrite Hfind.
  cbn [default from_option id length lookup_total list_lookup_total].
  rewrite bool_decide_eq_false_2 by done.
  by rewrite attr_scan_union.
Qed.

(** C9, as the code has it: among the blocks of an input whose header
    lines carry one handle, only those of three lines or more count.
    For a handle token that does not start with white space, the table
    holds after the parse the record that the last such block of three
    lines or more yields alone: the attributes its attribute lines
    store, and the type code, the size and the name of its own header
    and second line for the reserved names those lines do not store.
    Nothing of an earlier block of the handle and nothing of the table
    of before is in it. *)
Theorem last_block_wins text d pre b post h t sz :
  Strings.Split text (go "\n\n") = pre ++ b :: post →
  3 ≤ length (Strings.Split b (go "\n")) →
  header_line (go "DMI") h t sz (Strings.Split b (go "\n") !!! 0) →
  handle_token h →
  (∀ b', b' ∈ post →
     length (Strings.Split b' (go "\n")) < 3
     ∨ ∀ t' sz', ¬ header_line (go "DMI") h t' sz'
                     (Strings.Split b' (go "\n") !!! 0)) →
  Data (ParseDmidecode text d).2 !! h
  = Some (block_attrs b
          ∪ <[DMIName := Strings.Split b (go "\n") !!! 1]>
              (<[DMISize := sz]> (<[DMIType := t]> ∅)))
  ∧ Data (ParseDmidecode text d).2 !! h = Data (parse_record New b) !! h
  ∧ ∀ k, Data (ParseDmidecode text d).2 !! h ≫= (.!! k)
         = (block_attrs b
            ∪ <[DMIName := Strings.Split b (go "\n") !!! 1]>
                (<[DMISize := sz]> (<[DMIType := t]> ∅))) !! k.
Proof.
  intros Hsplit Hlen Hline Htok Hpost.
  pose proof (block_entry_header b h t sz Hlen Hline Htok) as Hentry.
  assert (Data (ParseDmidecode text d).2 !! h
          = Some (block_attrs b
                  ∪ <[DMIName := Strings.Split b (go "\n") !!! 1]>
                      (<[DMISize := sz]> (<[DMIType := t]> ∅)))) as Hrec.
  { rewrite ParseDmidecode_Data, Hsplit.
    apply add_entries_last; [exact Hentry|].
    by apply later_blocks_skipped. }
  split; [done|]. split.
  - rewrite Hrec. symmetry. by apply parse_record_New_lookup.
  - intros k. by rewrite Hrec.
Qed.

Lemma last_block_wins_witness :
  Data (ParseDmidecode repeated_handle New).2 !! go "0x0001"
    ≫= (.!! DMIType)
  = Some (go "2")
  ∧ Data (ParseDmidecode repeated_handle New).2 !! go "0x0001"
      ≫= (.!! go "Manufacturer")
    = None.
Proof.
  pose proof (last_block_wins repeated_handle New [first_report] second_block
                [] (go "0x0001") (go "2") (go "15")) as Hlast.
  destruct Hlast as (_ & _ & Hattr).
  - vm_compute. reflexivity.
  - vm_compute. lia.
  - exact second_block_header.
  - exact token_0x0001.
  - intros b' Hin. by apply elem_of_nil in Hin.
  - rewrite !Hattr. split; vm_compute; reflexivity.
Defined.

(** C9 fails when the last block of the handle has two lines: both
    blocks have a header line carrying [0x0001], the parser skips the
    second, and the record of the table is that of the first block. *)
Lemma short_last_block_skipped :
  Strings.Split short_last (go "\n\n") = [first_report; short_second_block]
  ∧ header_line (go "DMI") (go "0x0001") (go "1") (go "27")
      (Strings.Split first_report (go "\n") !!! 0)
  ∧ header_line (go "DMI") (go "0x0001") (go "2") (go "15")
      (Strings.Split short_second_block (go "\n") !!! 0)
  ∧ Data (ParseDmidecode short_last New).2 !! go "0x0001" ≫= (.!! DMIType)
    = Some (go "1")
  ∧ Data (ParseDmidecode short_last New).2 !! go "0x0001" ≫= (.!! DMIName)
    = Some (go "System Information")
  ∧ Data (ParseDmidecode short_last New).2 !! go "0x0001"
      ≫= (.!! go "Manufacturer")
    = Some (go "Acme").
Proof.
  split; [vm_compute; reflexivity|]. split; [exact first_report_header|].
  split.
  { exists (go " "), (go " "), (go " "), (go " "), (go " "), (go " ").
    unfold spaces, digits.
    repeat split; try discriminate; try (repeat constructor). }
  split; [vm_compute; reflexivity|]. split; vm_compute; reflexivity.
Qed.

(** C3, as the code has it.  The label of the header line is the fixed
    word [DMI].  A block of three lines or more whose first line is a
    header line with that label and a handle token that does not start
    with white space has an entry in the table under that handle.  When
    every later block of the input with a header line for the handle
    has fewer than three lines, the type code, the size and the name of
    the entry are the two numbers of the header and the second line of
    the block, each unless the attribute lines of the block store a
    value under the reserved name, which the entry then holds.  A block
    of three lines or more whose first line is a header line for any
    handle text that is not empty adds an entry, under a handle text for
    which the line is a header line.  A block whose first line is a
    header line with the label [DMI] for no handle text that is not
    empty leaves the table as it is, and so the value it is parsed
    into. *)
Theorem header_block_entry text d pre b post h t sz :
  Strings.Split text (go "\n\n") = pre ++ b :: post →
  3 ≤ length (Strings.Split b (go "\n")) →
  header_line (go "DMI") h t sz (Strings.Split b (go "\n") !!! 0) →
  handle_token h →
  is_Some (Data (ParseDmidecode text d).2 !! h)
  ∧ ((∀ b', b' ∈ post →
        length (Strings.Split b' (go "\n")) < 3
        ∨ ∀ t' sz', ¬ header_line (go "DMI") h t' sz'
                        (Strings.Split b' (go "\n") !!! 0)) →
     ∃ r, Data (ParseDmidecode text d).2 !! h = Some r
       ∧ r !! DMIType = Some (default t (block_attrs b !! DMIType))
       ∧ r !! DMISize = Some (default sz (block_attrs b !! DMISize))
       ∧ r !! DMIName
         = Some (default (Strings.Split b (go "\n") !!! 1)
                   (block_attrs b !! DMIName)))
  ∧ (∀ b0 d0 h0 t0 sz0,
       3 ≤ length (Strings.Split b0 (go "\n")) →
       header_line (go "DMI") h0 t0 sz0 (Strings.Split b0 (go "\n") !!! 0) →
       h0 ≠ [] →
       ∃ h1 t1 sz1, h1 ≠ []
         ∧ header_line (go "DMI") h1 t1 sz1
             (Strings.Split b0 (go "\n") !!! 0)
         ∧ is_Some (Data (parse_record d0 b0) !! h1)
         ∧ (handle_token h0 → h1 = h0))
  ∧ (∀ b0 d0,
       (∀ h0 t0 sz0, h0 ≠ [] →
          ¬ header_line (go "DMI") h0 t0 sz0
              (Strings.Split b0 (go "\n") !!! 0)) →
       parse_record d0 b0 = d0).
Proof.
  intros Hsplit Hlen Hline Htok.
  pose proof (block_entry_header b h t sz Hlen Hline Htok) as Hentry.
  rewrite ParseDmidecode_Data, Hsplit. split; [|split; [|split]].
  - rewrite foldl_app. cbn [foldl]. apply add_entries_keeps.
    unfold add_entry at 1. rewrite Hentry, lookup_insert_eq. eauto.
  - intros Hpost. eexists. split.
    + apply add_entries_last; [exact Hentry|].
      by apply later_blocks_skipped.
    + destruct (seed_lookup (Strings.Split b (go "\n") !!! 1) sz t)
        as (Ht & Hsz & Hname).
      split; [|split]; by apply union_seed_lookup.
  - intros b0 d0 h0 t0 sz0 Hlen0 Hline0 Hh0.
    destruct (block_entry_matches b0 h0 t0 sz0 Hlen0 Hline0 Hh0)
      as (h1 & t1 & sz1 & Hh1 & _ & Hline1 & Hentry1).
    exists h1, t1, sz1. split; [done|]. split; [done|]. split.
    + rewrite parse_record_entry. cbn [Data]. unfold add_entry.
      rewrite Hentry1, lookup_insert_eq. eauto.
    + intros Htok0.
      pose proof (block_entry_header b0 h0 t0 sz0 Hlen0 Hline0 Htok0) as He.
      rewrite Hentry1 in He. by injection He.
  - intros b0 d0 Hno. rewrite parse_record_entry. unfold add_entry.
    destruct (block_entry b0) as [[h0 r0]|] eqn:Hb0; [|by destruct d0].
    pose proof (block_entry_named _ _ _ Hb0) as (Hh0 & _ & _).
    apply block_entry_Some in Hb0 as (t0 & sz0 & _ & Hline0 & _).
    by destruct (Hno h0 t0 sz0).
Qed.

Lemma header_block_entry_witness :
  is_Some (Data (ParseDmidecode first_report New).2 !! go "0x0001").
Proof.
  refine (proj1 (header_block_entry first_report New [] first_report []
                   (go "0x0001") (go "1") (go "27") _ _ _ _)).
  - vm_compute. reflexivity.
  - vm_compute. lia.
  - exact first_report_header.
  - exists "0"%char, (go "x0001"). split; reflexivity.
Defined.

(** C3 fails for a label other than [DMI]: the block has three lines,
    its first line is a header line with the label [SMBIOS], and the
    table has no entry for its handle. *)
Lemma other_label_discarded :
  3 ≤ length (Strings.Split smbios_block (go "\n"))
  ∧ header_line (go "SMBIOS") (go "0x0001") (go "1") (go "27")
      (Strings.Split smbios_block (go "\n") !!! 0)
  ∧ handle_token (go "0x0001")
  ∧ Data (ParseDmidecode smbios_block New).2 !! go "0x0001" = None.
Proof.
  split; [vm_compute; lia|]. split; [|split].
  - exists (go " "), (go " "), (go " "), (go " "), (go " "), (go " ").
    unfold spaces, digits.
    repeat split; try discriminate; try (repeat constructor).
  - exists "0"%char, (go "x0001"). split; reflexivity.
  - vm_compute. reflexivity.
Qed.
